(** * Outbound flow control of the dilation layer

    A shallow embedding of [src/wormhole/_dilation/outbound.py] (class
    [Outbound]) and the properties of its scheduler, ledger and
    pause/resume controller.

    Python objects are modelled by their identity: a producer and a
    subchannel are natural numbers, the dictionary
    [_subchannel_producers] is a [gmap], the three classification sets are
    [gset]s, and the two deques are lists whose head is the left end.
    Every method is a computation in a small monad that threads the
    instance's attributes, records the calls made on collaborators
    (producers, manager, connection) and may raise a Python exception. *)

From stdpp Require Import gmap list sorting.
From Stdlib Require Import ZArith Lia.

#[local] Set Warnings "-clear-no-such-hyp".

(** ** Data model *)

Definition Producer := nat.
Definition Subchannel := nat.

(** The record classes handed to [build_record] ("only Open/Data/Close"). *)
Inductive RecordKind := Open | Data | Close.

Record Rec := mkRec {
  seqnum : Z;
  kind : RecordKind;
  args : list Z
}.

(** The attributes set by [__attrs_post_init__]. *)
Record Outbound := mkOutbound {
  outbound_queue : list Rec;
  next_outbound_seqnum : Z;
  queued_unsent : list Rec;
  subchannel_producers : gmap Subchannel Producer;
  paused : bool;
  all_producers : list Producer;
  pull_producers : gset Producer;
  paused_push_producers : gset Producer;
  unpaused_push_producers : gset Producer
}.

Definition post_init : Outbound :=
  mkOutbound [] 0%Z [] ∅ true [] ∅ ∅ ∅.

(** Calls the instance makes on its collaborators, in the order made. *)
Inductive Event :=
  | SigPause (p : Producer)         (* p.pauseProducing() *)
  | SigResume (p : Producer)        (* p.resumeProducing() *)
  | SendRecord (r : Rec)            (* self._manager._send_record(r) *)
  | ConnRegister.                   (* c.registerProducer(self, True) *)

Inductive Exn :=
  | AttributeError | ValueError | KeyError | AssertionError
  | TypeError | IndexError.

(** ** The method monad: attributes, trace of calls, exceptions.
    [Spin] marks a loop that is still running when its iteration bound is
    used up. *)

Inductive Res (A : Type) :=
  | Val (a : A)
  | Exc (e : Exn)
  | Spin.
Arguments Val {A} a.
Arguments Exc {A} e.
Arguments Spin {A}.

Definition M (A : Type) : Type := Outbound → Res A * Outbound * list Event.

Definition ret {A} (a : A) : M A := λ st, (Val a, st, []).

Definition bind {A B} (k : A → M B) (m : M A) : M B := λ st,
  match m st with
  | (Val a, st1, t1) =>
      match k a st1 with (r, st2, t2) => (r, st2, t1 ++ t2) end
  | (Exc e, st1, t1) => (Exc e, st1, t1)
  | (Spin, st1, t1) => (Spin, st1, t1)
  end.

(** stdpp's monad notations: [x ← m; k] and [m;; k]. *)
#[global] Instance M_ret : MRet M := @ret.
#[global] Instance M_bind : MBind M := @bind.

Definition get : M Outbound := λ st, (Val st, st, []).
Definition modify (f : Outbound → Outbound) : M unit := λ st, (Val (), f st, []).
Definition raise {A} (e : Exn) : M A := λ st, (Exc e, st, []).
Definition spin {A} : M A := λ st, (Spin, st, []).
Definition emit (e : Event) : M unit := λ st, (Val (), st, [e]).

Definition outcome {A} (x : Res A * Outbound * list Event) : Res A := x.1.1.
Definition final {A} (x : Res A * Outbound * list Event) : Outbound := x.1.2.
Definition trace {A} (x : Res A * Outbound * list Event) : list Event := x.2.

(** Attribute writes. *)
Definition set_outbound_queue q st :=
  mkOutbound q (next_outbound_seqnum st) (queued_unsent st)
    (subchannel_producers st) (paused st) (all_producers st)
    (pull_producers st) (paused_push_producers st) (unpaused_push_producers st).
Definition set_next_outbound_seqnum n st :=
  mkOutbound (outbound_queue st) n (queued_unsent st)
    (subchannel_producers st) (paused st) (all_producers st)
    (pull_producers st) (paused_push_producers st) (unpaused_push_producers st).
Definition set_queued_unsent q st :=
  mkOutbound (outbound_queue st) (next_outbound_seqnum st) q
    (subchannel_producers st) (paused st) (all_producers st)
    (pull_producers st) (paused_push_producers st) (unpaused_push_producers st).
Definition set_subchannel_producers m st :=
  mkOutbound (outbound_queue st) (next_outbound_seqnum st) (queued_unsent st)
    m (paused st) (all_producers st)
    (pull_producers st) (paused_push_producers st) (unpaused_push_producers st).
Definition set_paused b st :=
  mkOutbound (outbound_queue st) (next_outbound_seqnum st) (queued_unsent st)
    (subchannel_producers st) b (all_producers st)
    (pull_producers st) (paused_push_producers st) (unpaused_push_producers st).
Definition set_all_producers l st :=
  mkOutbound (outbound_queue st) (next_outbound_seqnum st) (queued_unsent st)
    (subchannel_producers st) (paused st) l
    (pull_producers st) (paused_push_producers st) (unpaused_push_producers st).
Definition set_pull_producers s st :=
  mkOutbound (outbound_queue st) (next_outbound_seqnum st) (queued_unsent st)
    (subchannel_producers st) (paused st) (all_producers st)
    s (paused_push_producers st) (unpaused_push_producers st).
Definition set_paused_push_producers s st :=
  mkOutbound (outbound_queue st) (next_outbound_seqnum st) (queued_unsent st)
    (subchannel_producers st) (paused st) (all_producers st)
    (pull_producers st) s (unpaused_push_producers st).

(** ** Python primitives the methods rely on *)

(** An attribute the class never sets: [self.producer] and
    [self._unpaused_producers] (only [_manager] and the attributes of
    [__attrs_post_init__] exist). *)
Definition getattr_missing {A} : M A := raise AttributeError.

(** [assert c]. *)
Definition assert (c : bool) : M unit :=
  if c then ret () else raise AssertionError.

(** [deque.remove(x)]: drops the first occurrence, [ValueError] if none. *)
Fixpoint deque_remove (x : Producer) (l : list Producer) : option (list Producer) :=
  match l with
  | [] => None
  | y :: l' =>
      if decide (y = x) then Some l'
      else match deque_remove x l' with
           | Some r => Some (y :: r)
           | None => None
           end
  end.

(** [deque.rotate(-1)]: the head moves to the end. *)
Definition rotate_left (l : list Producer) : list Producer :=
  match l with
  | [] => []
  | p :: rest => rest ++ [p]
  end.

(** [set.pop(p)]: [set.pop] takes no argument. *)
Definition set_pop_arg (p : Producer) : M unit := raise TypeError.

(** ** The methods of [Outbound] *)

Definition check_invariants : M unit :=
  st ← get;
  assert (bool_decide (pull_producers st ## unpaused_push_producers st));;
  assert (bool_decide (pull_producers st ## paused_push_producers st));;
  assert (bool_decide (unpaused_push_producers st ## paused_push_producers st));;
  assert (bool_decide (pull_producers st ∪ paused_push_producers st
                         ∪ unpaused_push_producers st
                       = list_to_set (all_producers st))).

(** [assert hasattr(r, "seqnum")] holds of the three record classes. *)
Definition build_record (record_type : RecordKind) (a : list Z) : M Rec :=
  st ← get;
  let s := next_outbound_seqnum st in
  modify (set_next_outbound_seqnum (s + 1)%Z);;
  ret (mkRec s record_type a).

Definition queue_record (r : Rec) : M unit :=
  st ← get;
  modify (set_outbound_queue (outbound_queue st ++ [r])).

Definition subchannel_registerProducer
    (sc : Subchannel) (producer : Producer) (streaming : bool) : M unit :=
  st ← get;
  (if bool_decide (is_Some (subchannel_producers st !! sc)) then
     getattr_missing ≫= λ b : bool,             (* if self.producer: *)
       if b then raise ValueError else ret ()
   else ret ());;
  modify (λ st, set_subchannel_producers (<[sc := producer]> (subchannel_producers st)) st);;
  modify (λ st, set_all_producers (all_producers st ++ [producer]) st);;
  st ← get;
  (if streaming then
     if paused st then
       modify (λ st, set_paused_push_producers ({[producer]} ∪ paused_push_producers st) st)
     else
       s ← getattr_missing (A := gset Producer);   (* self._unpaused_producers *)
       ret ()
   else
     modify (λ st, set_pull_producers ({[producer]} ∪ pull_producers st) st));;
  check_invariants;;
  st ← get;
  if paused st then
    if streaming then emit (SigPause producer) else ret ()
  else
    if negb streaming then emit (SigResume producer) else ret ().

Definition subchannel_unregisterProducer (sc : Subchannel) : M unit :=
  st ← get;
  match subchannel_producers st !! sc with
  | None => raise KeyError                       (* dict.pop(sc) *)
  | Some p =>
      modify (λ st, set_subchannel_producers (delete sc (subchannel_producers st)) st);;
      st ← get;
      match deque_remove p (all_producers st) with
      | None => raise ValueError
      | Some l =>
          modify (set_all_producers l);;
          modify (λ st, set_pull_producers (pull_producers st ∖ {[p]}) st);;
          modify (λ st, set_paused_push_producers (paused_push_producers st ∖ {[p]}) st);;
          s ← getattr_missing (A := gset Producer);   (* self._unpaused_producers *)
          check_invariants
      end
  end.

Definition subchannel_closed (scid : Z) (sc : Subchannel) : M unit :=
  check_invariants;;
  st ← get;
  if bool_decide (is_Some (subchannel_producers st !! sc)) then
    subchannel_unregisterProducer sc
  else ret ().

(** [handle_ack]'s two loops: pop the head while its seqnum is covered. *)
Fixpoint popleft_while (resp_seqnum : Z) (q : list Rec) : list Rec :=
  match q with
  | [] => []
  | r :: q' =>
      if bool_decide (seqnum r ≤ resp_seqnum)%Z then popleft_while resp_seqnum q'
      else q
  end.

Definition handle_ack (resp_seqnum : Z) : M unit :=
  modify (λ st, set_outbound_queue (popleft_while resp_seqnum (outbound_queue st)) st);;
  modify (λ st, set_queued_unsent (popleft_while resp_seqnum (queued_unsent st)) st).

(** The [for p in self._all_producers] loop of [pauseProducing]. *)
Fixpoint pause_each (l : list Producer) : M unit :=
  match l with
  | [] => ret ()
  | p :: l' =>
      st ← get;
      (if bool_decide (p ∈ unpaused_push_producers st) then
         set_pop_arg p;;
         modify (λ st, set_paused_push_producers ({[p]} ∪ paused_push_producers st) st);;
         emit (SigPause p)
       else ret ());;
      pause_each l'
  end.

Definition pauseProducing : M unit :=
  st ← get;
  if paused st then ret ()
  else
    modify (set_paused true);;
    pause_each (all_producers st).

(** The [while True] loop of [_get_next_unpaused_producer], run for at
    most [n] rotations ([rotate_until_total] below: one turn of the deque
    is always enough once [_check_invariants] has passed). *)
Fixpoint rotate_until (n : nat) : M Producer :=
  match n with
  | O => spin
  | S n' =>
      st ← get;
      match all_producers st with
      | [] => raise IndexError                   (* self._all_producers[0] *)
      | p :: _ =>
          modify (set_all_producers (rotate_left (all_producers st)));;
          if bool_decide (p ∈ pull_producers st ∨ p ∈ paused_push_producers st)
          then ret p
          else rotate_until n'
      end
  end.

Definition get_next_unpaused_producer : M (option Producer) :=
  check_invariants;;
  st ← get;
  if bool_decide (pull_producers st = ∅) && bool_decide (paused_push_producers st = ∅)
  then ret None
  else
    p ← rotate_until (length (all_producers st));
    ret (Some p).

(** What a collaborator does inside a call made by the drain loop: the
    [i]-th call of a drain re-enters [pauseProducing] before it returns
    exactly when [env i] holds (the connection filled up during the
    write). *)
Definition Env := nat → bool.

Definition calm : Env := λ _, false.

Definition reenter (env : Env) (i : nat) : M unit :=
  if env i then pauseProducing else ret ().

(** The [while not self._paused] loop of [resumeProducing], for at most
    [fuel] iterations; [i] counts the calls made so far. A producer is an
    object, hence true in [if not p]: the loop breaks on [None] only. *)
Fixpoint drain (env : Env) (i : nat) (fuel : nat) : M unit :=
  st ← get;
  if paused st then ret ()
  else
    match fuel with
    | O => spin
    | S fuel' =>
        match queued_unsent st with
        | r :: rest =>
            modify (set_queued_unsent rest);;
            emit (SendRecord r);;
            reenter env i;;
            drain env (S i) fuel'
        | [] =>
            o ← get_next_unpaused_producer;
            match o with
            | None => ret ()
            | Some p =>
                emit (SigResume p);;
                reenter env i;;
                drain env (S i) fuel'
            end
        end
    end.

Definition resumeProducing (env : Env) (fuel : nat) : M unit :=
  st ← get;
  if negb (paused st) then ret ()
  else
    modify (set_paused false);;
    drain env 0 fuel.

Definition stopProducing : M unit := pauseProducing.

Definition use_connection (env : Env) (fuel : nat) : M unit :=
  st ← get;
  assert (bool_decide (queued_unsent st = []));;
  modify (λ st, set_queued_unsent (queued_unsent st ++ outbound_queue st) st);;
  emit ConnRegister;;
  resumeProducing env fuel.

Definition stop_using_connection : M unit :=
  modify (set_queued_unsent []);;
  pauseProducing.

(** ** Reachable states: any sequence of calls of the public methods,
    whatever their outcome. *)

Inductive Op :=
  | OpBuildRecord (record_type : RecordKind) (a : list Z)
  | OpQueueRecord (r : Rec)
  | OpRegister (sc : Subchannel) (producer : Producer) (streaming : bool)
  | OpUnregister (sc : Subchannel)
  | OpClosed (scid : Z) (sc : Subchannel)
  | OpUseConnection (env : Env) (fuel : nat)
  | OpStopUsingConnection
  | OpHandleAck (resp_seqnum : Z)
  | OpPause
  | OpResume (env : Env) (fuel : nat)
  | OpStop.

Definition exec (op : Op) : M unit :=
  match op with
  | OpBuildRecord k a => build_record k a;; ret ()
  | OpQueueRecord r => queue_record r
  | OpRegister sc p streaming => subchannel_registerProducer sc p streaming
  | OpUnregister sc => subchannel_unregisterProducer sc
  | OpClosed scid sc => subchannel_closed scid sc
  | OpUseConnection env fuel => use_connection env fuel
  | OpStopUsingConnection => stop_using_connection
  | OpHandleAck m => handle_ack m
  | OpPause => pauseProducing
  | OpResume env fuel => resumeProducing env fuel
  | OpStop => stopProducing
  end.

Inductive reachable : Outbound → Prop :=
  | reachable_init : reachable post_init
  | reachable_step st op : reachable st → reachable (final (exec op st)).

(** Running a list of calls one after the other, each from the state the
    previous one left (raised or not). *)
Fixpoint run (ops : list Op) (st : Outbound) : Outbound :=
  match ops with
  | [] => st
  | op :: ops' => run ops' (final (exec op st))
  end.

(** The partition invariant asserted by [_check_invariants]. *)
Definition invariants (st : Outbound) : Prop :=
  pull_producers st ## unpaused_push_producers st ∧
  pull_producers st ## paused_push_producers st ∧
  unpaused_push_producers st ## paused_push_producers st ∧
  pull_producers st ∪ paused_push_producers st ∪ unpaused_push_producers st
    = list_to_set (all_producers st).

(** ** Notions used in the statements *)

(** A method obeys [R] and [T] when [R] relates the attributes before and
    after every run of it and [T] holds of the calls it makes. *)
Definition obeys (R : Outbound → Outbound → Prop) (T : list Event → Prop)
    {A} (m : M A) : Prop :=
  ∀ st, R st (final (m st)) ∧ T (trace (m st)).

Definition same_unpaused (a b : Outbound) : Prop :=
  unpaused_push_producers b = unpaused_push_producers a.

Definition any_trace (t : list Event) : Prop := True.

Definition seq_le (a b : Rec) : Prop := (seqnum a ≤ seqnum b)%Z.
Definition seq_lt (a b : Rec) : Prop := (seqnum a < seqnum b)%Z.

(** The records an acknowledgement of [m] does not cover, in order. *)
Definition beyond (m : Z) (q : list Rec) : list Rec :=
  filter (λ r, (m < seqnum r)%Z) q.

Definition ledger_012 : Outbound :=
  run [OpQueueRecord (mkRec 0 Open []); OpQueueRecord (mkRec 1 Data [104%Z]);
       OpQueueRecord (mkRec 2 Close [])] post_init.

#[global] Instance invariants_dec st : Decision (invariants st).
Proof. unfold invariants. apply _. Defined.

(** A producer the drain loop may give a turn to. *)
Definition eligible (st : Outbound) (p : Producer) : Prop :=
  p ∈ pull_producers st ∨ p ∈ paused_push_producers st.

(** The attributes after [subchannel_registerProducer] has admitted a
    push producer while paused. *)
Definition admit_paused_push (sc : Subchannel) (p : Producer) (st : Outbound) : Outbound :=
  set_paused_push_producers ({[p]} ∪ paused_push_producers st)
    (set_all_producers (all_producers st ++ [p])
       (set_subchannel_producers (<[sc := p]> (subchannel_producers st)) st)).

(** Registering push producers [ps] on the subchannels [scs], pairwise. *)
Definition register_pushes (scs : list Subchannel) (ps : list Producer) : list Op :=
  zip_with (λ sc p, OpRegister sc p true) scs ps.

(** A state left by a connection that filled up after the first of two
    replayed records. *)
Definition interrupted_replay : Outbound :=
  run [OpQueueRecord (mkRec 0 Open []); OpQueueRecord (mkRec 1 Data [104%Z]);
       OpUseConnection (λ _, true) 5] post_init.

(** A fresh instance with one pull producer registered. *)
Definition one_pull : Outbound := run [OpRegister 0 7 false] post_init.

(** The interrupted replay with a pull producer registered since. *)
Definition pull_while_replaying : Outbound :=
  run [OpRegister 0 7 false] interrupted_replay.

Definition same_replay (a b : Outbound) : Prop :=
  queued_unsent b = queued_unsent a.

Definition silent (t : list Event) : Prop := t = [].

(** A backlog of three records in front of one paused push producer. *)
Definition backlog_012 : Outbound :=
  run [OpRegister 0 7 true] ledger_012.

Definition same_paused (a b : Outbound) : Prop := paused b = paused a.

(** A fresh instance with one push producer registered (paused). *)
Definition one_push : Outbound := run [OpRegister 0 7 true] post_init.

(** A fresh instance after a first [resumeProducing]: unpaused, idle. *)
Definition idle_unpaused : Outbound := run [OpResume calm 1] post_init.

Definition same_sets (a b : Outbound) : Prop :=
  pull_producers b = pull_producers a ∧
  paused_push_producers b = paused_push_producers a ∧
  unpaused_push_producers b = unpaused_push_producers a.

(** Building a record and queueing it at once, the way a sender uses the
    two methods. *)
Definition build_and_queue (record_type : RecordKind) (a : list Z) : M Rec :=
  r ← build_record record_type a;
  queue_record r;;
  ret r.

(** The ledger is in order: the backlog is strictly ascending, below the
    next seqnum to hand out, and the replay queue is a subsequence of it. *)
Definition ledger_ok (st : Outbound) : Prop :=
  StronglySorted seq_lt (outbound_queue st) ∧
  Forall (λ r, (seqnum r < next_outbound_seqnum st)%Z) (outbound_queue st) ∧
  queued_unsent st `sublist_of` outbound_queue st.

(** States reached when records are only queued as they are built. *)
Inductive ledger_reachable : Outbound → Prop :=
  | ledger_init : ledger_reachable post_init
  | ledger_send st k a :
      ledger_reachable st →
      ledger_reachable (final (build_and_queue k a st))
  | ledger_step st op :
      ledger_reachable st → (∀ r, op ≠ OpQueueRecord r) →
      ledger_reachable (final (exec op st)).

(** The rotation holds the registered producers, once per registration. *)
Definition coherent (st : Outbound) : Prop :=
  all_producers st ≡ₚ (map_to_list (subchannel_producers st)).*2.

Definition is_build (op : Op) : bool :=
  match op with OpBuildRecord _ _ => true | _ => false end.

(** The calls that go through the registry. *)
Definition touches_registry (op : Op) : bool :=
  match op with
  | OpRegister _ _ _ | OpUnregister _ | OpClosed _ _ => true
  | _ => false
  end.

(** The attributes after [subchannel_registerProducer] has admitted a
    pull producer. *)
Definition admit_pull (sc : Subchannel) (p : Producer) (st : Outbound) : Outbound :=
  set_pull_producers ({[p]} ∪ pull_producers st)
    (set_all_producers (all_producers st ++ [p])
       (set_subchannel_producers (<[sc := p]> (subchannel_producers st)) st)).

(** [q'] is what an acknowledgement of [m] leaves of [q]: a prefix of
    covered records is gone, and the record now at the head, if any, is
    not covered. *)
Definition retired (m : Z) (q q' : list Rec) : Prop :=
  ∃ gone, q = gone ++ q' ∧
    Forall (λ r, (seqnum r ≤ m)%Z) gone ∧
    ∀ r, head q' = Some r → (m < seqnum r)%Z.

(** States that follow [st0] when records are only queued as they are
    built. *)
Inductive ledger_later (st0 : Outbound) : Outbound → Prop :=
  | later_now : ledger_later st0 st0
  | later_send st k a :
      ledger_later st0 st →
      ledger_later st0 (final (build_and_queue k a st))
  | later_step st op :
      ledger_later st0 st → (∀ r, op ≠ OpQueueRecord r) →
      ledger_later st0 (final (exec op st)).

(** Everything up to seqnum [m] has been handed out and retired. *)
Definition acked_below (m : Z) (st : Outbound) : Prop :=
  ledger_ok st ∧
  Forall (λ r, (m < seqnum r)%Z) (outbound_queue st) ∧
  (m < next_outbound_seqnum st)%Z.

Definition same_ledger (a b : Outbound) : Prop :=
  outbound_queue b = outbound_queue a ∧
  next_outbound_seqnum b = next_outbound_seqnum a ∧
  queued_unsent b = queued_unsent a.

Definition same_registry (a b : Outbound) : Prop :=
  subchannel_producers b = subchannel_producers a ∧
  all_producers b = all_producers a.

Definition same_seqnum (a b : Outbound) : Prop :=
  next_outbound_seqnum b = next_outbound_seqnum a.

(** ** Reasoning about the monad *)

Lemma bind_unfold {A B} (m : M A) (k : A → M B) st :
  (m ≫= k) st =
  match m st with
  | (Val a, st1, t1) =>
      match k a st1 with (r, st2, t2) => (r, st2, t1 ++ t2) end
  | (Exc e, st1, t1) => (Exc e, st1, t1)
  | (Spin, st1, t1) => (Spin, st1, t1)
  end.
Proof. reflexivity. Qed.

Lemma bind_val {A B} (m : M A) (k : A → M B) st a st1 t1 :
  m st = (Val a, st1, t1) →
  (m ≫= k) st = (outcome (k a st1), final (k a st1), t1 ++ trace (k a st1)).
Proof.
  intros E. rewrite bind_unfold, E.
  by destruct (k a st1) as [[r st2] t2].
Qed.

Lemma bind_exc {A B} (m : M A) (k : A → M B) st e st1 t1 :
  m st = (Exc e, st1, t1) → (m ≫= k) st = (Exc e, st1, t1).
Proof. intros E. by rewrite bind_unfold, E. Qed.

Lemma bind_spin {A B} (m : M A) (k : A → M B) st st1 t1 :
  m st = (Spin, st1, t1) → (m ≫= k) st = (Spin, st1, t1).
Proof. intros E. by rewrite bind_unfold, E. Qed.

Lemma result_eta {A} (x : Res A * Outbound * list Event) :
  x = (outcome x, final x, trace x).
Proof. by destruct x as [[r st] t]. Qed.

(** A frame rule: a relation [R] between the attributes before and after,
    and a property [T] of the calls made, both closed under sequencing,
    hold of a method as soon as they hold of the attribute writes and of
    the calls it contains. *)
Section Frame.
Context (R : Outbound → Outbound → Prop) (T : list Event → Prop).
Hypothesis R_refl : ∀ st, R st st.
Hypothesis R_trans : ∀ a b c, R a b → R b c → R a c.
Hypothesis T_nil : T [].
Hypothesis T_app : ∀ t1 t2, T t1 → T t2 → T (t1 ++ t2).

Lemma obeys_ret {A} (a : A) : obeys R T (ret a).
Proof using R_refl T_nil. intros st. by split. Qed.

Lemma obeys_get : obeys R T get.
Proof using R_refl T_nil. intros st. by split. Qed.

Lemma obeys_raise {A} e : obeys R T (raise (A := A) e).
Proof using R_refl T_nil. intros st. by split. Qed.

Lemma obeys_spin {A} : obeys R T (spin (A := A)).
Proof using R_refl T_nil. intros st. by split. Qed.

Lemma obeys_assert c : obeys R T (assert c).
Proof using R_refl T_nil. destruct c; [apply obeys_ret | apply obeys_raise]. Qed.

Lemma obeys_modify f : (∀ st, R st (f st)) → obeys R T (modify f).
Proof using T_nil. intros Hf st. by split; [apply Hf |]. Qed.

Lemma obeys_emit e : T [e] → obeys R T (emit e).
Proof using R_refl. intros He st. by split. Qed.

Lemma obeys_bind {A B} (m : M A) (k : A → M B) :
  obeys R T m → (∀ a, obeys R T (k a)) → obeys R T (m ≫= k).
Proof using R_trans T_app.
  intros Hm Hk st. rewrite bind_unfold.
  destruct (Hm st) as [HR HT].
  destruct (m st) as [[[a|e|] st1] t1]; simpl in *; [| done | done].
  destruct (Hk a st1) as [HR' HT'].
  destruct (k a st1) as [[r st2] t2]; simpl in *.
  split; [by eapply R_trans | by apply T_app].
Qed.

(** A raise cuts off whatever follows it. *)
Lemma obeys_raise_bind {A B} e (k : A → M B) : obeys R T (raise e ≫= k).
Proof using R_refl T_nil. intros st. by split. Qed.

Lemma obeys_check_invariants : obeys R T check_invariants.
Proof using R_refl R_trans T_nil T_app.
  unfold check_invariants.
  repeat (apply obeys_bind; [first [apply obeys_get | apply obeys_assert] | intros ?]).
  apply obeys_assert.
Qed.

Lemma obeys_pause_each l : obeys R T (pause_each l).
Proof using R_refl R_trans T_nil T_app.
  induction l as [|p l IH]; simpl; [apply obeys_ret |].
  apply obeys_bind; [apply obeys_get | intros st].
  apply obeys_bind; [| done].
  case_bool_decide; [apply obeys_raise_bind | apply obeys_ret].
Qed.

Hypothesis R_paused : ∀ b st, R st (set_paused b st).

Lemma obeys_pauseProducing : obeys R T pauseProducing.
Proof using R_refl R_trans T_nil T_app R_paused.
  unfold pauseProducing.
  apply obeys_bind; [apply obeys_get | intros st].
  destruct (paused st); [apply obeys_ret |].
  apply obeys_bind; [by apply obeys_modify | intros _; apply obeys_pause_each].
Qed.

Lemma obeys_reenter env i : obeys R T (reenter env i).
Proof using R_refl R_trans T_nil T_app R_paused.
  unfold reenter. destruct (env i); [apply obeys_pauseProducing | apply obeys_ret].
Qed.

Hypothesis R_all_producers : ∀ l st, R st (set_all_producers l st).

Lemma obeys_rotate_until n : obeys R T (rotate_until n).
Proof using R_refl R_trans T_nil T_app R_all_producers.
  induction n as [|n IH]; simpl; [apply obeys_spin |].
  apply obeys_bind; [apply obeys_get | intros st].
  destruct (all_producers st) as [|p rest]; [apply obeys_raise |].
  apply obeys_bind; [by apply obeys_modify | intros _].
  case_bool_decide; [apply obeys_ret | done].
Qed.

Lemma obeys_get_next_unpaused_producer : obeys R T get_next_unpaused_producer.
Proof using R_refl R_trans T_nil T_app R_all_producers.
  unfold get_next_unpaused_producer.
  apply obeys_bind; [apply obeys_check_invariants | intros _].
  apply obeys_bind; [apply obeys_get | intros st].
  destruct (_ && _); [apply obeys_ret |].
  apply obeys_bind; [apply obeys_rotate_until | intros p; apply obeys_ret].
Qed.

Hypothesis R_queued_unsent : ∀ q st, R st (set_queued_unsent q st).
Hypothesis T_send : ∀ r, T [SendRecord r].
Hypothesis T_resume : ∀ p, T [SigResume p].

Lemma obeys_drain env fuel : ∀ i, obeys R T (drain env i fuel).
Proof using R_refl R_trans T_nil T_app R_paused R_all_producers
            R_queued_unsent T_send T_resume.
  induction fuel as [|fuel IH]; intros i; simpl.
  - apply obeys_bind; [apply obeys_get | intros st].
    destruct (paused st); [apply obeys_ret | apply obeys_spin].
  - apply obeys_bind; [apply obeys_get | intros st].
    destruct (paused st); [apply obeys_ret |].
    destruct (queued_unsent st) as [|r rest].
    + apply obeys_bind; [apply obeys_get_next_unpaused_producer | intros [p|]];
        [| apply obeys_ret].
      apply obeys_bind; [by apply obeys_emit | intros _].
      apply obeys_bind; [apply obeys_reenter | intros _; apply IH].
    + apply obeys_bind; [by apply obeys_modify | intros _].
      apply obeys_bind; [by apply obeys_emit | intros _].
      apply obeys_bind; [apply obeys_reenter | intros _; apply IH].
Qed.

Lemma obeys_resumeProducing env fuel : obeys R T (resumeProducing env fuel).
Proof using R_refl R_trans T_nil T_app R_paused R_all_producers
            R_queued_unsent T_send T_resume.
  unfold resumeProducing.
  apply obeys_bind; [apply obeys_get | intros st].
  destruct (negb (paused st)); [apply obeys_ret |].
  apply obeys_bind; [by apply obeys_modify | intros _; apply obeys_drain].
Qed.
End Frame.

(** Walks through a method body with the frame rule; what is left are the
    conditions on the attribute writes and the calls. *)
Ltac frame_step :=
  lazymatch goal with
  | |- obeys _ _ (ret _) => apply obeys_ret
  | |- obeys _ _ get => apply obeys_get
  | |- obeys _ _ (raise _) => apply obeys_raise
  | |- obeys _ _ getattr_missing => apply obeys_raise
  | |- obeys _ _ (getattr_missing ≫= _) => apply obeys_raise_bind
  | |- obeys _ _ spin => apply obeys_spin
  | |- obeys _ _ (assert _) => apply obeys_assert
  | |- obeys _ _ (modify _) => apply obeys_modify
  | |- obeys _ _ (emit _) => apply obeys_emit
  | |- obeys _ _ check_invariants => apply obeys_check_invariants
  | |- obeys _ _ pauseProducing => apply obeys_pauseProducing
  | |- obeys _ _ (resumeProducing _ _) => apply obeys_resumeProducing
  | |- obeys _ _ (_ ≫= _) => apply obeys_bind
  | |- obeys _ _ (if ?b then _ else _) => destruct b
  | |- obeys _ _ (match ?x with _ => _ end) => destruct x
  end.

Ltac frame := repeat (intros; frame_step).

(** *** No method writes [_unpaused_push_producers] *)

Lemma exec_same_unpaused op : obeys same_unpaused any_trace (exec op).
Proof.
  destruct op; simpl;
    unfold build_record, queue_record, subchannel_registerProducer,
      subchannel_unregisterProducer, subchannel_closed, use_connection,
      stop_using_connection, handle_ack, stopProducing;
    frame; try (unfold subchannel_unregisterProducer; frame);
    unfold same_unpaused, any_trace in *; simpl; first [done | congruence].
Qed.

Lemma reachable_unpaused_empty st :
  reachable st → unpaused_push_producers st = ∅.
Proof.
  induction 1 as [|st op _ IH]; [done |].
  destruct (exec_same_unpaused op st) as [H _]. unfold same_unpaused in H. congruence.
Qed.

Lemma pause_each_idle l st :
  unpaused_push_producers st = ∅ → pause_each l st = (Val (), st, []).
Proof.
  intros E. induction l as [|p l IH]; [done |].
  simpl. rewrite bind_unfold. simpl. rewrite bind_unfold.
  rewrite bool_decide_eq_false_2 by (rewrite E; set_solver).
  simpl. by rewrite IH.
Qed.

Lemma set_paused_id st : set_paused (paused st) st = st.
Proof. by destruct st. Qed.

Lemma pauseProducing_idle st :
  unpaused_push_producers st = ∅ →
  pauseProducing st = (Val (), set_paused true st, []).
Proof.
  intros E. unfold pauseProducing. rewrite bind_unfold. simpl.
  destruct (paused st) eqn:P.
  - by rewrite <- P, set_paused_id.
  - rewrite bind_unfold. simpl. by rewrite pause_each_idle.
Qed.

(** C10. In every state reachable by calls of the public methods, whether
    they returned or raised, [_unpaused_push_producers] is empty; there
    [pauseProducing] returns normally, calls no producer and changes
    nothing but the [_paused] flag, which it sets. *)
Theorem unpaused_push_always_empty st :
  reachable st →
  unpaused_push_producers st = ∅ ∧
  pauseProducing st = (Val (), set_paused true st, []).
Proof.
  intros H. apply reachable_unpaused_empty in H.
  split; [done | by apply pauseProducing_idle].
Qed.

Lemma unpaused_push_always_empty_witness :
  let st := run [OpRegister 0 7 true; OpResume calm 3; OpRegister 1 8 true;
                 OpUnregister 0; OpPause; OpResume calm 2; OpPause] post_init in
  unpaused_push_producers st = ∅ ∧
  pauseProducing st = (Val (), set_paused true st, []).
Proof.
  apply unpaused_push_always_empty.
  repeat (apply reachable_step). apply reachable_init.
Defined.

(** ** The ledger: retiring acknowledged records *)

#[global] Instance seq_le_trans : Transitive seq_le.
Proof. unfold seq_le. intros a b c. lia. Qed.

#[global] Instance seq_lt_trans : Transitive seq_lt.
Proof. unfold seq_lt. intros a b c. lia. Qed.

Lemma beyond_all m q :
  Forall (λ r, (m < seqnum r)%Z) q → beyond m q = q.
Proof.
  unfold beyond. induction 1 as [|r q Hr _ IH]; [done |].
  by rewrite filter_cons_True, IH.
Qed.

Lemma popleft_while_beyond m q :
  Sorted seq_le q → popleft_while m q = beyond m q.
Proof.
  intros H. apply Sorted_StronglySorted in H; [| apply _].
  induction H as [|r q Hq IH Hr]; [done |].
  simpl. case_bool_decide as C.
  - unfold beyond. rewrite filter_cons_False by lia. apply IH.
  - symmetry. apply beyond_all. constructor; [lia |].
    eapply Forall_impl; [exact Hr |]. unfold seq_le. intros; simpl in *; lia.
Qed.

Lemma popleft_while_mono m1 m2 q :
  (m1 ≤ m2)%Z →
  popleft_while m2 (popleft_while m1 q) = popleft_while m2 q.
Proof.
  intros Hm. induction q as [|r q IH]; [done |].
  simpl. case_bool_decide as C1.
  - rewrite IH. by rewrite bool_decide_eq_true_2 by lia.
  - done.
Qed.

Lemma handle_ack_unfold m st :
  handle_ack m st =
  (Val (),
   set_queued_unsent (popleft_while m (queued_unsent st))
     (set_outbound_queue (popleft_while m (outbound_queue st)) st),
   []).
Proof. reflexivity. Qed.

(** C5. On queues sorted by seqnum, [handle_ack m] keeps exactly the
    records with a seqnum above [m], in their order, in the backlog and
    in the replay queue, and touches nothing else; it changes nothing when
    no record is covered; acknowledging [m] again changes nothing more, and
    a later acknowledgement [m2 >= m] leaves what acknowledging [m2] alone
    would have left. *)
Theorem handle_ack_retires m st :
  Sorted seq_le (outbound_queue st) →
  Sorted seq_le (queued_unsent st) →
  let st' := final (handle_ack m st) in
  outcome (handle_ack m st) = Val () ∧
  trace (handle_ack m st) = [] ∧
  st' = set_queued_unsent (beyond m (queued_unsent st))
          (set_outbound_queue (beyond m (outbound_queue st)) st) ∧
  (Forall (λ r, (m < seqnum r)%Z) (outbound_queue st ++ queued_unsent st) →
   st' = st) ∧
  final (handle_ack m st') = st' ∧
  ∀ m2, (m ≤ m2)%Z → final (handle_ack m2 st') = final (handle_ack m2 st).
Proof.
  intros Hb Hq st'. subst st'. rewrite !handle_ack_unfold. simpl.
  split; [done |]. split; [done |]. split; [| split; [| split]].
  - by rewrite !popleft_while_beyond.
  - intros H. apply Forall_app in H as [H1 H2].
    rewrite !popleft_while_beyond, !beyond_all by done. by destruct st.
  - unfold set_queued_unsent, set_outbound_queue. simpl.
    by rewrite !popleft_while_mono by lia.
  - intros m2 Hm. rewrite !handle_ack_unfold.
    unfold set_queued_unsent, set_outbound_queue. simpl.
    by rewrite !popleft_while_mono by lia.
Qed.

Lemma handle_ack_retires_witness :
  let st' := final (handle_ack 1 ledger_012) in
  outcome (handle_ack 1 ledger_012) = Val () ∧
  trace (handle_ack 1 ledger_012) = [] ∧
  st' = set_queued_unsent (beyond 1 (queued_unsent ledger_012))
          (set_outbound_queue (beyond 1 (outbound_queue ledger_012)) ledger_012) ∧
  (Forall (λ r, (1 < seqnum r)%Z)
     (outbound_queue ledger_012 ++ queued_unsent ledger_012) →
   st' = ledger_012) ∧
  final (handle_ack 1 st') = st' ∧
  ∀ m2, (1 ≤ m2)%Z → final (handle_ack m2 st') = final (handle_ack m2 ledger_012).
Proof.
  apply (handle_ack_retires 1 ledger_012).
  - simpl. repeat constructor; unfold seq_le; simpl; lia.
  - simpl. constructor.
Defined.

(** Scenario C: after records 0, 1, 2 are queued, [handle_ack 1] leaves
    only record 2 in the backlog. *)
Example handle_ack_scenario :
  outbound_queue (final (handle_ack 1 ledger_012)) = [mkRec 2 Close []].
Proof. reflexivity. Qed.

(** ** The scheduler: [_check_invariants] and [_get_next_unpaused_producer] *)

Lemma check_invariants_ok st :
  invariants st → check_invariants st = (Val (), st, []).
Proof.
  intros (H1 & H2 & H3 & H4).
  unfold check_invariants, mbind, M_bind, bind, get, assert. simpl.
  by rewrite !bool_decide_eq_true_2 by done.
Qed.

Lemma check_invariants_fail st :
  ¬ invariants st → check_invariants st = (Exc AssertionError, st, []).
Proof.
  intros N. unfold invariants in N.
  unfold check_invariants, mbind, M_bind, bind, get, assert. simpl.
  repeat (case_bool_decide; simpl; [| done]). tauto.
Qed.

Lemma first_eligible st (l : list Producer) :
  Exists (eligible st) l →
  ∃ a p b, l = a ++ p :: b ∧ Forall (λ x, ¬ eligible st x) a ∧ eligible st p.
Proof.
  induction l as [|x l IH]; intros H; [by inversion H |].
  destruct (decide (eligible st x)) as [E|E].
  - exists [], x, l. by repeat split.
  - inversion H as [? ? Hx|? ? Hl]; subst; [done |].
    destruct (IH Hl) as (a & p & b & -> & Ha & Hp).
    exists (x :: a), p, b. repeat split; [| done]. by constructor.
Qed.

(** The rotation stops at the first eligible producer, which ends up at
    the tail of the deque; those skipped keep their order behind it. *)
Lemma rotate_until_spec a : ∀ n st p b,
  all_producers st = a ++ p :: b →
  Forall (λ x, ¬ eligible st x) a →
  eligible st p →
  (length a < n)%nat →
  rotate_until n st = (Val p, set_all_producers (b ++ a ++ [p]) st, []).
Proof.
  induction a as [|x a IH]; intros n st p b Hl Ha Hp Hn;
    (destruct n as [|n]; [simpl in Hn; lia |]); simpl;
    rewrite bind_unfold; simpl; rewrite Hl; simpl; rewrite bind_unfold; simpl.
  - by rewrite bool_decide_eq_true_2.
  - apply Forall_cons in Ha as [Hx Ha].
    rewrite bool_decide_eq_false_2 by done.
    rewrite (IH n _ p (b ++ [x])); simpl.
    + unfold set_all_producers. simpl. by rewrite <- !app_assoc.
    + by rewrite <- app_assoc.
    + done.
    + done.
    + simpl in Hn. lia.
Qed.

Lemma get_next_none st :
  invariants st → pull_producers st = ∅ → paused_push_producers st = ∅ →
  get_next_unpaused_producer st = (Val None, st, []).
Proof.
  intros Hi H1 H2. unfold get_next_unpaused_producer.
  rewrite bind_unfold, check_invariants_ok by done.
  rewrite bind_unfold. simpl.
  by rewrite !bool_decide_eq_true_2 by done.
Qed.

Lemma get_next_some st a p b :
  invariants st →
  all_producers st = a ++ p :: b →
  Forall (λ x, ¬ eligible st x) a →
  eligible st p →
  get_next_unpaused_producer st
  = (Val (Some p), set_all_producers (b ++ a ++ [p]) st, []).
Proof.
  intros Hi Hl Ha Hp. unfold get_next_unpaused_producer.
  rewrite bind_unfold, check_invariants_ok by done.
  rewrite bind_unfold. simpl.
  assert (bool_decide (pull_producers st = ∅)
          && bool_decide (paused_push_producers st = ∅) = false) as ->.
  { apply andb_false_iff. destruct Hp as [Hp|Hp]; [left | right];
      apply bool_decide_eq_false_2; set_solver. }
  rewrite bind_unfold, (rotate_until_spec a _ st p b); [done.. |].
  rewrite Hl, length_app. simpl. lia.
Qed.

(** Every call of [_get_next_unpaused_producer] ends in one of three
    ways; in particular its [while True] loop is left within one turn of
    the deque. *)
Lemma get_next_cases st :
  (¬ invariants st ∧
   get_next_unpaused_producer st = (Exc AssertionError, st, [])) ∨
  (invariants st ∧ pull_producers st = ∅ ∧ paused_push_producers st = ∅ ∧
   get_next_unpaused_producer st = (Val None, st, [])) ∨
  (invariants st ∧
   ∃ a p b, all_producers st = a ++ p :: b ∧
     Forall (λ x, ¬ eligible st x) a ∧ eligible st p ∧
     get_next_unpaused_producer st
     = (Val (Some p), set_all_producers (b ++ a ++ [p]) st, [])).
Proof.
  destruct (decide (invariants st)) as [Hi|Hi].
  - right.
    destruct (decide (pull_producers st = ∅ ∧ paused_push_producers st = ∅))
      as [[H1 H2]|N].
    + left. by rewrite get_next_none.
    + right. split; [done |].
      assert (∃ x, eligible st x) as [x Hx].
      { unfold eligible.
        destruct (set_choose_or_empty (pull_producers st ∪ paused_push_producers st))
          as [[x Hx]|E]; [exists x; set_solver |].
        exfalso. apply N. set_solver. }
      assert (Exists (eligible st) (all_producers st)) as Hex.
      { apply Exists_exists. exists x. split; [| done].
        destruct Hi as (_ & _ & _ & Hu).
        apply (elem_of_list_to_set (C := gset Producer)).
        rewrite <- Hu. apply elem_of_union_l, elem_of_union. exact Hx. }
      destruct (first_eligible st _ Hex) as (a & p & b & Hl & Ha & Hp).
      exists a, p, b. repeat split; [done.. |]. by apply get_next_some.
  - left. split; [done |]. unfold get_next_unpaused_producer.
    by rewrite bind_unfold, check_invariants_fail.
Qed.

Lemma rotate_until_total st :
  outcome (get_next_unpaused_producer st) ≠ Spin.
Proof.
  destruct (get_next_cases st) as [[_ ->]|[(_ & _ & _ & ->)|(_ & a & p & b & _ & _ & _ & ->)]];
    done.
Qed.

(** ** The drain loop of [resumeProducing] *)

Lemma bind_get {A} (k : Outbound → M A) st : (get ≫= k) st = k st st.
Proof. rewrite bind_unfold. simpl. by destruct (k st st) as [[r st2] t2]. Qed.

Lemma bind_modify {A} f (k : unit → M A) st : (modify f ≫= k) st = k () (f st).
Proof. rewrite bind_unfold. simpl. by destruct (k () (f st)) as [[r st2] t2]. Qed.

Lemma bind_ret {A B} (a : A) (k : A → M B) st : (ret a ≫= k) st = k a st.
Proof. rewrite bind_unfold. simpl. by destruct (k a st) as [[r st2] t2]. Qed.

Lemma bind_emit {A} e (k : unit → M A) st :
  (emit e ≫= k) st = (outcome (k () st), final (k () st), e :: trace (k () st)).
Proof. rewrite bind_unfold. simpl. by destruct (k () st) as [[r st2] t2]. Qed.

Lemma drain_paused env i fuel st :
  paused st = true → drain env i fuel st = (Val (), st, []).
Proof. intros P. destruct fuel; simpl; by rewrite bind_get, P. Qed.

Lemma drain_out_of_fuel env i st :
  paused st = false → drain env i 0 st = (Spin, st, []).
Proof. intros P. simpl. by rewrite bind_get, P. Qed.

Lemma drain_send env i fuel st r rest :
  paused st = false → queued_unsent st = r :: rest →
  drain env i (S fuel) st
  = (outcome ((reenter env i;; drain env (S i) fuel) (set_queued_unsent rest st)),
     final ((reenter env i;; drain env (S i) fuel) (set_queued_unsent rest st)),
     SendRecord r :: trace ((reenter env i;; drain env (S i) fuel) (set_queued_unsent rest st))).
Proof.
  intros P Q. simpl. rewrite bind_get, P, Q. by rewrite bind_modify, bind_emit.
Qed.

Lemma drain_turn env i fuel st :
  paused st = false → queued_unsent st = [] →
  drain env i (S fuel) st
  = (o ← get_next_unpaused_producer;
     match o with
     | None => ret ()
     | Some p => emit (SigResume p);; reenter env i;; drain env (S i) fuel
     end) st.
Proof. intros P Q. simpl. by rewrite bind_get, P, Q. Qed.

Lemma drain_turn_calm i fuel st p st' :
  paused st = false → queued_unsent st = [] →
  get_next_unpaused_producer st = (Val (Some p), st', []) →
  drain calm i (S fuel) st
  = (outcome (drain calm (S i) fuel st'), final (drain calm (S i) fuel st'),
     SigResume p :: trace (drain calm (S i) fuel st')).
Proof.
  intros P Q G. rewrite drain_turn by done.
  rewrite (bind_val _ _ _ _ _ _ G). simpl.
  rewrite bind_emit. unfold reenter, calm. by rewrite bind_ret.
Qed.

Lemma resumeProducing_paused env fuel st :
  paused st = true →
  resumeProducing env fuel st = drain env 0 fuel (set_paused false st).
Proof.
  intros P. unfold resumeProducing. rewrite bind_get, P. simpl.
  by rewrite bind_modify.
Qed.

Lemma resumeProducing_unpaused env fuel st :
  paused st = false → resumeProducing env fuel st = (Val (), st, []).
Proof. intros P. unfold resumeProducing. by rewrite bind_get, P. Qed.

(** Rotating the deque changes neither its membership nor the sets. *)
Lemma invariants_rotated st l :
  l ≡ₚ all_producers st → invariants st → invariants (set_all_producers l st).
Proof.
  intros Hp (H1 & H2 & H3 & H4). repeat split; [done.. |]. simpl.
  rewrite H4. apply set_eq. intros x. rewrite !elem_of_list_to_set.
  by rewrite Hp.
Qed.

(** With nothing to replay and no re-entrant pause, the loop hands out
    turns along the deque: the producers at its head, all eligible, are
    signalled one after the other in deque order. *)
Lemma drain_round a : ∀ b st fuel i,
  paused st = false → queued_unsent st = [] → invariants st →
  all_producers st = a ++ b → Forall (eligible st) a →
  (length a ≤ fuel)%nat →
  take (length a) (trace (drain calm i fuel st)) = SigResume <$> a.
Proof.
  induction a as [|p a IH]; intros b st fuel i P Q Hi Hl Ha Hf; [done |].
  destruct fuel as [|fuel]; [simpl in Hf; lia |].
  apply Forall_cons in Ha as [Hp Ha].
  rewrite (drain_turn_calm i fuel st p (set_all_producers ((a ++ b) ++ [] ++ [p]) st));
    [| done | done | by apply (get_next_some st [] p (a ++ b))].
  simpl. f_equal.
  apply (IH (b ++ [p])); simpl; try done.
  - apply invariants_rotated; [| done]. rewrite Hl. simpl.
    by rewrite <- Permutation_cons_append.
  - by rewrite <- app_assoc.
  - simpl in Hf. lia.
Qed.

(** ** Registration *)

Lemma register_push_paused st sc p :
  subchannel_producers st !! sc = None →
  paused st = true →
  invariants st →
  p ∉ pull_producers st → p ∉ unpaused_push_producers st →
  subchannel_registerProducer sc p true st
  = (Val (), admit_paused_push sc p st, [SigPause p])
  ∧ invariants (admit_paused_push sc p st).
Proof.
  intros Hsc P (H1 & H2 & H3 & H4) Hpull Hun.
  assert (invariants (admit_paused_push sc p st)) as Hi.
  { repeat split; simpl; [done | set_solver | set_solver |].
    rewrite list_to_set_app_L. simpl. set_solver. }
  split; [| done].
  unfold subchannel_registerProducer.
  rewrite bind_get, Hsc.
  rewrite bool_decide_eq_false_2 by (by intros [? ?]).
  rewrite bind_ret, !bind_modify, bind_get. simpl. rewrite P.
  rewrite bind_modify.
  erewrite bind_val by (by apply check_invariants_ok).
  rewrite bind_get. simpl. by rewrite P.
Qed.

Lemma run_register_pushes scs : ∀ ps st,
  NoDup scs → length scs = length ps →
  (∀ sc, sc ∈ scs → subchannel_producers st !! sc = None) →
  paused st = true → invariants st →
  pull_producers st = ∅ → unpaused_push_producers st = ∅ →
  let st' := run (register_pushes scs ps) st in
  all_producers st' = all_producers st ++ ps ∧
  paused_push_producers st' = list_to_set ps ∪ paused_push_producers st ∧
  pull_producers st' = ∅ ∧ unpaused_push_producers st' = ∅ ∧
  paused st' = true ∧ queued_unsent st' = queued_unsent st ∧
  invariants st'.
Proof.
  induction scs as [|sc scs IH]; intros ps st Hnd Hlen Hfree P Hi Hpull Hun.
  { destruct ps; [| done]. simpl. rewrite app_nil_r.
    repeat split; try done; try apply Hi. set_solver. }
  destruct ps as [|p ps]; [done |].
  apply NoDup_cons in Hnd as [Hsc Hnd].
  destruct (register_push_paused st sc p) as [E Hi'];
    [apply Hfree; set_solver | done | done | set_solver | set_solver |].
  change (run (register_pushes (sc :: scs) (p :: ps)) st)
    with (run (register_pushes scs ps)
            (final (subchannel_registerProducer sc p true st))).
  rewrite E.
  change (final (Val (), admit_paused_push sc p st, [SigPause p]))
    with (admit_paused_push sc p st).
  destruct (IH ps (admit_paused_push sc p st)) as (R1 & R2 & R3 & R4 & R5 & R6 & R7);
    try done.
  - simpl in Hlen. lia.
  - intros sc' Hin. simpl. rewrite lookup_insert_ne by set_solver.
    apply Hfree. set_solver.
  - cbv zeta. rewrite R1, R2, R3, R4, R5, R6. simpl.
    rewrite <- app_assoc. split_and!; try done. set_solver.
Qed.

Lemma invariants_post_init : invariants post_init.
Proof. unfold invariants. simpl. split_and!; set_solver. Qed.

(** C1. When [N] distinct push producers are registered on [N] subchannels
    of a fresh (hence paused) instance, one call of [resumeProducing] with
    nothing to replay and no re-entrant pause makes its first [N] calls
    to the [N] producers, one [resumeProducing] each, in the order in which
    they were registered: nobody is called a second time before everybody
    has been called once. *)
Theorem resume_first_round_fair scs ps fuel :
  NoDup scs → NoDup ps → length scs = length ps →
  (length ps ≤ fuel)%nat →
  let st := run (register_pushes scs ps) post_init in
  queued_unsent st = [] ∧ paused st = true ∧
  take (length ps) (trace (resumeProducing calm fuel st)) = SigResume <$> ps ∧
  NoDup (take (length ps) (trace (resumeProducing calm fuel st))).
Proof.
  intros Hscs Hps Hlen Hfuel st.
  destruct (run_register_pushes scs ps post_init) as (R1 & R2 & R3 & R4 & R5 & R6 & R7);
    [done | done | done | done | apply invariants_post_init | done | done |].
  fold st in R1, R2, R3, R4, R5, R6, R7. simpl in R1, R2, R6.
  assert (take (length ps) (trace (resumeProducing calm fuel st)) = SigResume <$> ps) as E.
  { rewrite resumeProducing_paused by done.
    apply (drain_round ps []); simpl; try done.
    - by rewrite R1, app_nil_r.
    - apply Forall_forall. intros p Hp. right. simpl. rewrite R2. set_solver. }
  repeat split; [done.. | |]; rewrite E; [done |].
  apply NoDup_fmap_2; [| done]. by intros x y [= ->].
Qed.

Lemma resume_first_round_fair_witness :
  let st := run (register_pushes [0; 1; 2] [10; 11; 12]) post_init in
  queued_unsent st = [] ∧ paused st = true ∧
  take 3 (trace (resumeProducing calm 5 st)) = SigResume <$> [10; 11; 12] ∧
  NoDup (take 3 (trace (resumeProducing calm 5 st))).
Proof.
  apply (resume_first_round_fair [0; 1; 2] [10; 11; 12] 5).
  - compute_done.
  - compute_done.
  - reflexivity.
  - simpl. lia.
Defined.

(** Scenario B: push producers A then B are paused; on resume A is
    signalled first, then B. *)
Example resume_scenario_two :
  take 2 (trace (resumeProducing calm 2
                   (run (register_pushes [0; 1] [10; 11]) post_init)))
  = [SigResume 10; SigResume 11].
Proof. vm_compute. reflexivity. Qed.

(** ** Termination of the drain loop *)

(** As long as some producer is eligible, nothing is left to replay and no
    call re-enters [pauseProducing], the loop never ends. *)
Lemma drain_spins fuel : ∀ st i,
  paused st = false → queued_unsent st = [] → invariants st →
  (∃ p, eligible st p) →
  outcome (drain calm i fuel st) = Spin.
Proof.
  induction fuel as [|fuel IH]; intros st i P Q Hi [x Hx].
  { by rewrite drain_out_of_fuel. }
  destruct (get_next_cases st)
    as [[N _]|[(_ & H1 & H2 & _)|(_ & a & p & b & Hl & Ha & Hp & G)]].
  - done.
  - unfold eligible in Hx. set_solver.
  - rewrite (drain_turn_calm i fuel st p _ P Q G). simpl.
    apply IH; simpl; [done | done | | by exists x].
    apply invariants_rotated; [| done]. rewrite Hl.
    by rewrite (Permutation_app_comm b), <- app_assoc.
Qed.

(** With nobody eligible the loop sends what is left to replay and stops:
    at most one iteration per record and one more. *)
Lemma drain_idle env fuel : ∀ st i,
  unpaused_push_producers st = ∅ →
  pull_producers st = ∅ → paused_push_producers st = ∅ →
  (length (queued_unsent st) < fuel)%nat →
  outcome (drain env i fuel st) ≠ Spin ∧
  (invariants st → outcome (drain env i fuel st) = Val ()).
Proof.
  induction fuel as [|fuel IH]; intros st i Hun H1 H2 Hf; [lia |].
  destruct (paused st) eqn:P; [by rewrite drain_paused |].
  destruct (queued_unsent st) as [|r rest] eqn:Q.
  - rewrite drain_turn by done.
    destruct (get_next_cases st)
      as [[N G]|[(Hi & _ & _ & G)|(_ & a & p & b & _ & _ & Hp & _)]].
    + erewrite bind_exc by exact G. by split.
    + erewrite bind_val by exact G. by split.
    + unfold eligible in Hp. set_solver.
  - rewrite (drain_send env i fuel st r rest) by done. simpl.
    unfold reenter. destruct (env i).
    + erewrite bind_val by (by apply pauseProducing_idle).
      rewrite drain_paused by done. by split.
    + rewrite bind_ret.
      destruct (IH (set_queued_unsent rest st) (S i)) as [A B]; simpl; [done.. | |].
      { simpl in Hf. lia. }
      split; [exact A | exact B].
Qed.

(** While some producer is eligible and no call re-enters
    [pauseProducing], the loop does not end either when records are left
    to replay: it sends them and goes on with the turns. *)
Lemma drain_spins_replaying fuel : ∀ st i,
  paused st = false → invariants st → (∃ p, eligible st p) →
  outcome (drain calm i fuel st) = Spin.
Proof.
  induction fuel as [|fuel IH]; intros st i P Hi Hx.
  { by rewrite drain_out_of_fuel. }
  destruct (queued_unsent st) as [|r rest] eqn:Q; [by apply drain_spins |].
  rewrite (drain_send calm i fuel st r rest) by done.
  unfold reenter, calm. rewrite bind_ret.
  exact (IH (set_queued_unsent rest st) (S i) P Hi Hx).
Qed.

(** C3 (as amended). In a reachable state: when neither the pull set nor
    the paused-push set holds a producer, [resumeProducing] ends within
    one loop iteration per record left to replay and one more, whichever
    of the calls it makes re-enter [pauseProducing]: it never runs out of
    the bound, and it returns normally when the partition invariant
    holds. When the state is paused, its partition invariant holds and
    the pull set holds a producer, [resumeProducing] with no call
    re-entering [pauseProducing] does not return: it is still looping
    after any number of iterations. Every call of
    [_get_next_unpaused_producer], in any state, ends. *)
Theorem resume_termination st :
  reachable st →
  (∀ env fuel,
     pull_producers st = ∅ → paused_push_producers st = ∅ →
     (length (queued_unsent st) < fuel)%nat →
     outcome (resumeProducing env fuel st) ≠ Spin ∧
     (invariants st → outcome (resumeProducing env fuel st) = Val ())) ∧
  (invariants st → paused st = true → pull_producers st ≠ ∅ →
   ∀ fuel, outcome (resumeProducing calm fuel st) = Spin) ∧
  (∀ st', outcome (get_next_unpaused_producer st') ≠ Spin).
Proof.
  intros Hr. apply reachable_unpaused_empty in Hr.
  split_and!; [| | apply rotate_until_total].
  - intros env fuel H1 H2 Hf.
    destruct (paused st) eqn:P; [| by rewrite resumeProducing_unpaused].
    rewrite resumeProducing_paused by done.
    destruct (drain_idle env fuel (set_paused false st) 0) as [A B]; [done.. |].
    split; [exact A | exact B].
  - intros Hi P Hpull fuel.
    rewrite resumeProducing_paused by done.
    apply drain_spins_replaying; [done | exact Hi |].
    destruct (set_choose_or_empty (pull_producers st)) as [[p Hp]|E];
      [| by destruct Hpull; apply leibniz_equiv].
    exists p. by left.
Qed.

Lemma resume_termination_witness :
  (outcome (resumeProducing calm 2 interrupted_replay) ≠ Spin ∧
   (invariants interrupted_replay →
    outcome (resumeProducing calm 2 interrupted_replay) = Val ())) ∧
  (∀ fuel, outcome (resumeProducing calm fuel pull_while_replaying) = Spin).
Proof.
  split.
  - destruct (resume_termination interrupted_replay) as (A & _ & _).
    + repeat apply reachable_step. apply reachable_init.
    + apply A; [reflexivity | reflexivity | simpl; lia].
  - destruct (resume_termination pull_while_replaying) as (_ & B & _).
    + repeat apply reachable_step. apply reachable_init.
    + apply B; [| reflexivity | compute_done].
      unfold invariants. split_and!; compute_done.
Defined.

(** C3 (as stated) fails: with one pull producer registered on a fresh
    instance and no call ever re-entering [pauseProducing], a call of
    [resumeProducing] is still looping after any number of iterations. *)
Lemma resume_never_returns_with_pull :
  reachable one_pull ∧
  (∀ fuel, outcome (resumeProducing calm fuel one_pull) = Spin) ∧
  ¬ (∃ fuel, outcome (resumeProducing calm fuel one_pull) = Val ()).
Proof.
  assert (∀ fuel, outcome (resumeProducing calm fuel one_pull) = Spin) as H.
  { intros fuel. rewrite resumeProducing_paused by done.
    apply drain_spins; [done | done | | exists 7; left; compute_done].
    unfold invariants. split_and!; compute_done. }
  split_and!; [| done |].
  - repeat apply reachable_step. apply reachable_init.
  - intros [fuel E]. by rewrite H in E.
Qed.

Example interrupted_replay_state :
  queued_unsent interrupted_replay = [mkRec 1 Data [104%Z]] ∧
  paused interrupted_replay = true.
Proof. by vm_compute. Qed.

(** ** Replay comes first *)

(** A re-entrant [pauseProducing] and the scheduler call nobody and leave
    the replay queue alone. *)
Lemma reenter_quiet env i : obeys same_replay silent (reenter env i).
Proof.
  apply obeys_reenter; unfold same_replay, silent; intros; simpl; subst;
    first [done | congruence].
Qed.

Lemma get_next_quiet : obeys same_replay silent get_next_unpaused_producer.
Proof.
  apply obeys_get_next_unpaused_producer; unfold same_replay, silent;
    intros; simpl; subst; first [done | congruence].
Qed.

(** The calls of a drain: a prefix of the replay queue is sent, in queue
    order; producers get turns only once the whole queue has been sent;
    and the whole queue is sent when the bound allows it and no call made
    for it re-enters [pauseProducing]. *)
Lemma drain_replay env fuel : ∀ i st,
  ∃ k resumes,
    trace (drain env i fuel st)
    = (SendRecord <$> take k (queued_unsent st)) ++ (SigResume <$> resumes) ∧
    (resumes ≠ [] → k = length (queued_unsent st)) ∧
    (paused st = false →
     (∀ j, (j < length (queued_unsent st))%nat → env (i + j)%nat = false) →
     (length (queued_unsent st) ≤ fuel)%nat →
     k = length (queued_unsent st)).
Proof.
  induction fuel as [|fuel IH]; intros i st.
  { exists 0%nat, []. split_and!; [| done |].
    - destruct (paused st) eqn:P;
        [by rewrite drain_paused | by rewrite drain_out_of_fuel].
    - intros _ _ Hf. lia. }
  destruct (paused st) eqn:P.
  { exists 0%nat, []. by rewrite drain_paused. }
  destruct (queued_unsent st) as [|r rest] eqn:Q.
  - (* nothing to replay: a turn *)
    rewrite drain_turn by done. rewrite bind_unfold.
    destruct (get_next_quiet st) as [HR HT].
    destruct (get_next_unpaused_producer st) as [[[[p|]|e|] st2] t2];
      unfold same_replay, silent, final, trace in HR, HT; simpl in HR, HT; subst t2;
      [| by exists 0%nat, [].. ].
    rewrite bind_emit, bind_unfold.
    destruct (reenter_quiet env i st2) as [HR' HT'].
    destruct (reenter env i st2) as [[[[]|e|] st3] t3];
      unfold same_replay, silent, final, trace in HR', HT'; simpl in HR', HT'; subst t3;
      [| by exists 0%nat, [p].. ].
    destruct (IH (S i) st3) as (k & resumes & E & _ & _).
    rewrite HR', HR, Q, take_nil in E. simpl in E.
    exists 0%nat, (p :: resumes).
    destruct (drain env (S i) fuel st3) as [[r3 st4] t4]. simpl in *.
    by rewrite E.
  - (* replay the head *)
    rewrite (drain_send env i fuel st r rest) by done.
    set (st1 := set_queued_unsent rest st).
    rewrite bind_unfold.
    destruct (reenter_quiet env i st1) as [HR HT].
    destruct (reenter env i st1) as [[[[]|e|] st2] t2] eqn:Ere;
      unfold same_replay, silent, final, trace in HR, HT; simpl in HR, HT; subst t2;
      [| exists 1%nat, []; simpl; rewrite ?take_0; split_and!; [done | done |];
         intros _ Hcalm _; unfold reenter in Ere;
         rewrite <- (Nat.add_0_r i), Hcalm in Ere by (simpl; lia); done.. ].
    destruct (IH (S i) st2) as (k & resumes & E & Hres & Hall).
    rewrite HR in E, Hres, Hall. simpl in E, Hres, Hall.
    exists (S k), resumes.
    destruct (drain env (S i) fuel st2) as [[r3 st4] t4]. simpl in *.
    rewrite E. split_and!; [done | by intros ?; f_equal; apply Hres |].
    intros _ Hcalm Hf. f_equal.
    unfold reenter in Ere.
    rewrite <- (Nat.add_0_r i), Hcalm in Ere by lia.
    injection Ere as <-. apply Hall; [done | | lia].
    intros j Hj. rewrite <- Nat.add_succ_r. apply Hcalm. lia.
Qed.

(** C6. When a connection is attached (nothing left in the replay queue)
    over a backlog in strictly ascending seqnum order, the calls made are:
    the registration with the connection, then records of the backlog
    from its head, in backlog order and hence in strictly ascending seqnum
    order, then turns given to producers; no producer is given a turn
    unless every record of the backlog has been sent before; and the whole
    backlog is sent when the instance was paused, the loop bound allows it
    and no send re-enters [pauseProducing]. *)
Theorem replay_before_turns env fuel st :
  queued_unsent st = [] →
  Sorted seq_lt (outbound_queue st) →
  ∃ k resumes,
    trace (use_connection env fuel st)
    = ConnRegister :: (SendRecord <$> take k (outbound_queue st))
        ++ (SigResume <$> resumes) ∧
    StronglySorted seq_lt (take k (outbound_queue st)) ∧
    (resumes ≠ [] → k = length (outbound_queue st)) ∧
    (paused st = true →
     (∀ j, (j < length (outbound_queue st))%nat → env j = false) →
     (length (outbound_queue st) ≤ fuel)%nat →
     k = length (outbound_queue st)).
Proof.
  intros Q Hs. apply Sorted_StronglySorted in Hs; [| apply _].
  assert (∀ k, StronglySorted seq_lt (take k (outbound_queue st))) as Hk.
  { intros k. rewrite <- (take_drop k (outbound_queue st)) in Hs.
    by apply StronglySorted_app_1_l in Hs. }
  unfold use_connection.
  rewrite bind_get, Q. rewrite bool_decide_eq_true_2 by done.
  unfold assert. rewrite bind_ret, bind_modify, bind_emit. simpl.
  rewrite Q. simpl.
  set (st1 := set_queued_unsent (outbound_queue st) st).
  destruct (paused st) eqn:P.
  - rewrite resumeProducing_paused by done.
    destruct (drain_replay env fuel 0 (set_paused false st1))
      as (k & resumes & E & Hres & Hall).
    change (queued_unsent (set_paused false st1)) with (outbound_queue st)
      in E, Hres, Hall.
    exists k, resumes. rewrite E. split_and!; [done | done | done |].
    intros _ Hcalm Hf. by apply Hall.
  - rewrite resumeProducing_unpaused by done.
    exists 0%nat, []. simpl. rewrite take_0. split_and!; [done | constructor | done | done].
Qed.

Lemma replay_before_turns_witness :
  ∃ k resumes,
    trace (use_connection calm 4 backlog_012)
    = ConnRegister :: (SendRecord <$> take k (outbound_queue backlog_012))
        ++ (SigResume <$> resumes) ∧
    StronglySorted seq_lt (take k (outbound_queue backlog_012)) ∧
    (resumes ≠ [] → k = length (outbound_queue backlog_012)) ∧
    (paused backlog_012 = true →
     (∀ j, (j < length (outbound_queue backlog_012))%nat → calm j = false) →
     (length (outbound_queue backlog_012) ≤ 4)%nat →
     k = length (outbound_queue backlog_012)).
Proof.
  apply (replay_before_turns calm 4 backlog_012).
  - reflexivity.
  - simpl. repeat constructor; unfold seq_lt; simpl; lia.
Defined.

(** Replay ordering on records 0, 1, 2: they are sent in that order before
    the registered producer gets its first turn. *)
Example replay_scenario :
  trace (use_connection calm 4 backlog_012)
  = [ConnRegister; SendRecord (mkRec 0 Open []);
     SendRecord (mkRec 1 Data [104%Z]); SendRecord (mkRec 2 Close []);
     SigResume 7].
Proof. by vm_compute. Qed.

(** ** Redundant pause and resume calls *)

Lemma pauseProducing_sets_paused st : paused (final (pauseProducing st)) = true.
Proof.
  unfold pauseProducing. rewrite bind_get.
  destruct (paused st) eqn:P; [done |]. rewrite bind_modify.
  destruct (obeys_pause_each same_paused any_trace) with (l := all_producers st)
    (st := set_paused true st) as [H _]; unfold same_paused; try done; congruence.
Qed.

Lemma pauseProducing_paused st :
  paused st = true → pauseProducing st = (Val (), st, []).
Proof. intros P. unfold pauseProducing. by rewrite bind_get, P. Qed.

Lemma get_next_same_paused : obeys same_paused any_trace get_next_unpaused_producer.
Proof.
  apply obeys_get_next_unpaused_producer; unfold same_paused, any_trace;
    intros; simpl; first [done | congruence].
Qed.

(** Without a re-entrant pause the flag stays cleared throughout the loop,
    however the loop ends. *)
Lemma drain_calm_unpaused fuel : ∀ i st,
  paused st = false → paused (final (drain calm i fuel st)) = false.
Proof.
  induction fuel as [|fuel IH]; intros i st P.
  { by rewrite drain_out_of_fuel. }
  destruct (queued_unsent st) as [|r rest] eqn:Q.
  - rewrite drain_turn by done. rewrite bind_unfold.
    destruct (get_next_same_paused st) as [HR _].
    destruct (get_next_unpaused_producer st) as [[[[p|]|e|] st2] t2];
      unfold same_paused, final in HR; simpl in HR; rewrite P in HR;
      [| done..].
    rewrite bind_emit. unfold reenter, calm. rewrite bind_ret.
    exact (IH (S i) st2 HR).
  - rewrite (drain_send calm i fuel st r rest) by done.
    unfold reenter, calm. rewrite bind_ret.
    exact (IH (S i) (set_queued_unsent rest st) P).
Qed.

Lemma resume_calm_unpaused fuel st :
  paused (final (resumeProducing calm fuel st)) = false.
Proof.
  destruct (paused st) eqn:P.
  - rewrite resumeProducing_paused by done. by apply drain_calm_unpaused.
  - by rewrite resumeProducing_unpaused.
Qed.

(** C7. In every reachable state [pauseProducing] returns normally, a
    second [pauseProducing] right after it returns normally, calls nobody
    and changes nothing, and the two calls in a row have the result, the
    attributes and the calls of the first alone. The same holds of
    [resumeProducing] when no call made by the first re-enters
    [pauseProducing]: however the first ends, a second one right after it
    returns normally, calls nobody and changes nothing. *)
Theorem pause_resume_absorbed st :
  reachable st →
  outcome (pauseProducing st) = Val () ∧
  pauseProducing (final (pauseProducing st))
    = (Val (), final (pauseProducing st), []) ∧
  (pauseProducing;; pauseProducing) st = pauseProducing st ∧
  ∀ fuel env' fuel',
    resumeProducing env' fuel' (final (resumeProducing calm fuel st))
      = (Val (), final (resumeProducing calm fuel st), []) ∧
    (resumeProducing calm fuel;; resumeProducing env' fuel') st
      = resumeProducing calm fuel st.
Proof.
  intros Hr. apply reachable_unpaused_empty in Hr.
  assert (pauseProducing (final (pauseProducing st))
          = (Val (), final (pauseProducing st), [])) as Hp
    by apply pauseProducing_paused, pauseProducing_sets_paused.
  assert (∀ fuel env' fuel',
    resumeProducing env' fuel' (final (resumeProducing calm fuel st))
      = (Val (), final (resumeProducing calm fuel st), [])) as Hres
    by (intros; apply resumeProducing_unpaused, resume_calm_unpaused).
  split_and!.
  - by rewrite pauseProducing_idle.
  - done.
  - rewrite bind_unfold.
    destruct (pauseProducing st) as [[[[]|e|] st1] t1]; [| done..].
    unfold final in Hp. simpl in Hp. by rewrite Hp, app_nil_r.
  - intros fuel env' fuel'. split; [done |].
    specialize (Hres fuel env' fuel'). rewrite bind_unfold.
    destruct (resumeProducing calm fuel st) as [[[[]|e|] st1] t1]; [| done..].
    unfold final in Hres. simpl in Hres. by rewrite Hres, app_nil_r.
Qed.

Lemma pause_resume_absorbed_witness :
  outcome (pauseProducing backlog_012) = Val () ∧
  pauseProducing (final (pauseProducing backlog_012))
    = (Val (), final (pauseProducing backlog_012), []) ∧
  (pauseProducing;; pauseProducing) backlog_012 = pauseProducing backlog_012 ∧
  ∀ fuel env' fuel',
    resumeProducing env' fuel' (final (resumeProducing calm fuel backlog_012))
      = (Val (), final (resumeProducing calm fuel backlog_012), []) ∧
    (resumeProducing calm fuel;; resumeProducing env' fuel') backlog_012
      = resumeProducing calm fuel backlog_012.
Proof.
  apply (pause_resume_absorbed backlog_012).
  unfold backlog_012, ledger_012.
  repeat apply reachable_step. apply reachable_init.
Defined.

(** A first [resumeProducing] that does return: on a fresh instance it
    clears the flag, calls nobody, and a second one changes nothing. *)
Example resume_twice_fresh :
  resumeProducing calm 1 post_init = (Val (), set_paused false post_init, []) ∧
  (resumeProducing calm 1;; resumeProducing calm 1) post_init
  = resumeProducing calm 1 post_init.
Proof. by vm_compute. Qed.

(** ** Where the code departs from its own design *)

(** [resumeProducing] never moves a producer between the three sets,
    whatever the collaborators do: pull producers stay in the pull set,
    and so do paused push producers in theirs. *)
Lemma resume_never_reclassifies env fuel st :
  same_sets st (final (resumeProducing env fuel st)).
Proof.
  destruct (obeys_resumeProducing same_sets any_trace) with (env := env)
    (fuel := fuel) (st := st) as [H _];
    unfold same_sets, any_trace; intros; simpl; try done.
  destruct_and!. split_and!; congruence.
Qed.

(** C2. The turn given to a paused push producer: on a fresh instance
    with push producer 7 registered, the first loop iteration of
    [resumeProducing] calls [resumeProducing] on 7 and leaves 7 in
    [_paused_push_producers] and out of [_unpaused_push_producers]. *)
Theorem resume_turn_leaves_paused_push :
  trace (resumeProducing calm 1 one_push) = [SigResume 7] ∧
  7 ∈ paused_push_producers (final (resumeProducing calm 1 one_push)) ∧
  (7 ∉ unpaused_push_producers (final (resumeProducing calm 1 one_push))) ∧
  trace (resumeProducing calm 3 one_push)
  = [SigResume 7; SigResume 7; SigResume 7].
Proof. split_and!; [by vm_compute | compute_done | compute_done | by vm_compute]. Qed.

(** C4. Registering a push producer on an unpaused instance: the call
    raises [AttributeError] after the producer was appended to the deque,
    so the producer is in the rotation and in none of the three sets, and
    the partition invariant fails. *)
Theorem register_push_unpaused_breaks_partition :
  paused idle_unpaused = false ∧ invariants idle_unpaused ∧
  outcome (subchannel_registerProducer 0 7 true idle_unpaused)
  = Exc AttributeError ∧
  all_producers (final (subchannel_registerProducer 0 7 true idle_unpaused))
  = [7] ∧
  pull_producers (final (subchannel_registerProducer 0 7 true idle_unpaused))
    ∪ paused_push_producers (final (subchannel_registerProducer 0 7 true idle_unpaused))
    ∪ unpaused_push_producers (final (subchannel_registerProducer 0 7 true idle_unpaused))
  = ∅ ∧
  ¬ invariants (final (subchannel_registerProducer 0 7 true idle_unpaused)).
Proof.
  split_and!; [by vm_compute | | by vm_compute | by vm_compute | compute_done | compute_done].
  unfold invariants. split_and!; compute_done.
Qed.

(** A second registration on a mapped subchannel stops at [self.producer]:
    it raises [AttributeError], not the [ValueError] written two lines
    below, and nothing has been changed by then. *)
Lemma register_mapped_raises st sc producer streaming :
  is_Some (subchannel_producers st !! sc) →
  subchannel_registerProducer sc producer streaming st
  = (Exc AttributeError, st, []).
Proof.
  intros H. unfold subchannel_registerProducer.
  rewrite bind_get. by rewrite bool_decide_eq_true_2 by done.
Qed.

(** C8. Registering producer 8 on subchannel 0, which already has
    producer 7: the call raises [AttributeError] (not [ValueError]) and
    leaves every attribute as it was. *)
Theorem register_duplicate_raises_attribute_error :
  subchannel_producers one_push !! 0 = Some 7 ∧
  subchannel_registerProducer 0 8 true one_push
  = (Exc AttributeError, one_push, []) ∧
  outcome (subchannel_registerProducer 0 8 true one_push) ≠ Exc ValueError.
Proof.
  split_and!; [by vm_compute | | ];
    by rewrite register_mapped_raises by (by exists 7; vm_compute).
Qed.

(** What [subchannel_unregisterProducer] does: [KeyError] on an unmapped
    subchannel; on a mapped one the mapping, the first occurrence in the
    deque and the memberships in the pull and paused-push sets are
    removed, and then [self._unpaused_producers] raises [AttributeError]
    before [_check_invariants] is reached. *)
Lemma unregister_cases st sc :
  match subchannel_producers st !! sc with
  | None => subchannel_unregisterProducer sc st = (Exc KeyError, st, [])
  | Some p =>
      match deque_remove p (all_producers st) with
      | None =>
          subchannel_unregisterProducer sc st
          = (Exc ValueError,
             set_subchannel_producers (delete sc (subchannel_producers st)) st, [])
      | Some l =>
          subchannel_unregisterProducer sc st
          = (Exc AttributeError,
             set_paused_push_producers (paused_push_producers st ∖ {[p]})
               (set_pull_producers (pull_producers st ∖ {[p]})
                  (set_all_producers l
                     (set_subchannel_producers
                        (delete sc (subchannel_producers st)) st))), [])
      end
  end.
Proof.
  unfold subchannel_unregisterProducer. rewrite bind_get.
  destruct (subchannel_producers st !! sc) as [p|]; [| done].
  rewrite bind_modify, bind_get. simpl.
  destruct (deque_remove p (all_producers st)) as [l|]; [| done].
  by rewrite !bind_modify.
Qed.

(** C9. Unregistering on a fresh instance with push producer 7 on
    subchannel 0: on the unmapped subchannel 1 the call raises [KeyError]
    and changes nothing; on subchannel 0 it raises [AttributeError] once
    the mapping, the deque entry and the set membership are gone, and so
    does [subchannel_closed] on subchannel 0; [subchannel_closed] on
    subchannel 1 returns and changes nothing. *)
Theorem unregister_mapped_raises_attribute_error :
  subchannel_unregisterProducer 1 one_push = (Exc KeyError, one_push, []) ∧
  outcome (subchannel_unregisterProducer 0 one_push) = Exc AttributeError ∧
  subchannel_producers (final (subchannel_unregisterProducer 0 one_push)) = ∅ ∧
  all_producers (final (subchannel_unregisterProducer 0 one_push)) = [] ∧
  paused_push_producers (final (subchannel_unregisterProducer 0 one_push)) = ∅ ∧
  outcome (subchannel_closed 0 0 one_push) = Exc AttributeError ∧
  subchannel_closed 0 1 one_push = (Val (), one_push, []).
Proof. split_and!; by vm_compute. Qed.

(** ** What the flow-control methods preserve *)

Lemma pause_each_final l st : pause_each l st = (Val (), st, []) ∨
  pause_each l st = (Exc TypeError, st, []).
Proof.
  induction l as [|p l IH]; [by left |].
  simpl. rewrite bind_get, bind_unfold.
  case_bool_decide; [by right |]. simpl.
  destruct IH as [-> | ->]; [by left | by right].
Qed.

Lemma pauseProducing_final st :
  (final (pauseProducing st) = st ∨ final (pauseProducing st) = set_paused true st)
  ∧ trace (pauseProducing st) = [].
Proof.
  unfold pauseProducing. rewrite bind_get.
  destruct (paused st); [by split; [left |] |].
  rewrite bind_modify.
  by destruct (pause_each_final (all_producers st) (set_paused true st)) as [-> | ->];
    split; [right | | right |].
Qed.

(** A property of the attributes that survives a write of the flag, the
    removal of the head of the replay queue and a reordering of the deque
    survives the drain loop, however it ends. *)
Section Preserve.
Context (P : Outbound → Prop).
Hypothesis P_paused : ∀ b st, P st → P (set_paused b st).
Hypothesis P_pop : ∀ r rest st,
  P st → queued_unsent st = r :: rest → P (set_queued_unsent rest st).
Hypothesis P_rotate : ∀ l st,
  P st → l ≡ₚ all_producers st → P (set_all_producers l st).

Lemma preserved_pauseProducing st : P st → P (final (pauseProducing st)).
Proof using P_paused.
  intros H. destruct (pauseProducing_final st) as [[-> | ->] _]; auto.
Qed.

Lemma preserved_reenter env i st : P st → P (final (reenter env i st)).
Proof using P_paused.
  unfold reenter. destruct (env i); [apply preserved_pauseProducing | done].
Qed.

Lemma preserved_get_next st :
  P st → P (final (get_next_unpaused_producer st)).
Proof using P_rotate.
  intros H.
  destruct (get_next_cases st)
    as [[_ ->]|[(_ & _ & _ & ->)|(_ & a & p & b & Hl & _ & _ & ->)]];
    [done | done |].
  apply P_rotate; [done |]. rewrite Hl.
  by rewrite (Permutation_app_comm b), <- app_assoc.
Qed.

Lemma preserved_drain env fuel : ∀ i st,
  P st → P (final (drain env i fuel st)).
Proof using P_paused P_pop P_rotate.
  induction fuel as [|fuel IH]; intros i st H.
  { destruct (paused st) eqn:E;
      [by rewrite drain_paused | by rewrite drain_out_of_fuel]. }
  destruct (paused st) eqn:E; [by rewrite drain_paused |].
  destruct (queued_unsent st) as [|r rest] eqn:Q.
  - rewrite drain_turn by done. rewrite bind_unfold.
    pose proof (preserved_get_next st H) as H2.
    destruct (get_next_unpaused_producer st) as [[[[p|]|e|] st2] t2];
      [| done..].
    rewrite bind_emit, bind_unfold.
    pose proof (preserved_reenter env i st2 H2) as H3.
    destruct (reenter env i st2) as [[[[]|e|] st3] t3]; [| done..].
    pose proof (IH (S i) st3 H3) as H4.
    by destruct (drain env (S i) fuel st3) as [[r4 st4] t4].
  - rewrite (drain_send env i fuel st r rest) by done. rewrite bind_unfold.
    pose proof (preserved_reenter env i _ (P_pop r rest st H Q)) as H3.
    destruct (reenter env i (set_queued_unsent rest st)) as [[[[]|e|] st3] t3];
      [| done..].
    pose proof (IH (S i) st3 H3) as H4.
    by destruct (drain env (S i) fuel st3) as [[r4 st4] t4].
Qed.

Lemma preserved_resumeProducing env fuel st :
  P st → P (final (resumeProducing env fuel st)).
Proof using P_paused P_pop P_rotate.
  intros H. destruct (paused st) eqn:E.
  - rewrite resumeProducing_paused by done. by apply preserved_drain, P_paused.
  - by rewrite resumeProducing_unpaused.
Qed.

Hypothesis P_clear : ∀ st, P st → P (set_queued_unsent [] st).
Hypothesis P_copy : ∀ st,
  P st → queued_unsent st = [] → P (set_queued_unsent (outbound_queue st) st).

Lemma preserved_use_connection env fuel st :
  P st → P (final (use_connection env fuel st)).
Proof using P_paused P_pop P_rotate P_copy.
  intros H. unfold use_connection. rewrite bind_get.
  case_bool_decide as Q; [| done].
  unfold assert. rewrite bind_ret, bind_modify, bind_emit. simpl.
  rewrite Q. simpl. by apply preserved_resumeProducing, P_copy.
Qed.

Lemma preserved_stop_using_connection st :
  P st → P (final (stop_using_connection st)).
Proof using P_paused P_clear.
  intros H. unfold stop_using_connection. rewrite bind_modify.
  by apply preserved_pauseProducing, P_clear.
Qed.
End Preserve.

(** ** The partition outside the registry calls *)

(** X1. Every call other than the three that go through the registry
    (register, unregister, subchannel closed) keeps the partition
    invariant of [_check_invariants], whatever its outcome and whatever the
    collaborators do. *)
Theorem flow_control_keeps_partition op st :
  touches_registry op = false →
  invariants st → invariants (final (exec op st)).
Proof.
  assert (∀ b st, invariants st → invariants (set_paused b st)) as Hp by done.
  assert (∀ r rest st, invariants st → queued_unsent st = r :: rest →
            invariants (set_queued_unsent rest st)) as Hq by done.
  assert (∀ l st, invariants st → l ≡ₚ all_producers st →
            invariants (set_all_producers l st)) as Hr
    by (intros; by apply invariants_rotated).
  intros Hop Hi. destruct op; try done; simpl.
  - by apply preserved_use_connection.
  - by apply preserved_stop_using_connection.
  - by apply preserved_pauseProducing.
  - by apply preserved_resumeProducing.
  - by apply preserved_pauseProducing.
Qed.

Lemma flow_control_keeps_partition_witness :
  invariants (final (exec (OpUseConnection (λ i, bool_decide (i = 3)) 9) backlog_012)).
Proof.
  apply flow_control_keeps_partition; [reflexivity |].
  unfold invariants. split_and!; compute_done.
Defined.

(** X2. When the partition invariant is broken, a [resumeProducing] on a
    paused instance with nothing to replay raises [AssertionError] from
    the scheduler, having cleared the flag and called nobody; later
    [resumeProducing] calls therefore return at once. *)
Theorem resume_on_broken_partition env fuel st :
  ¬ invariants st → paused st = true → queued_unsent st = [] →
  resumeProducing env (S fuel) st
    = (Exc AssertionError, set_paused false st, []) ∧
  ∀ env' fuel',
    resumeProducing env' fuel' (set_paused false st)
      = (Val (), set_paused false st, []).
Proof.
  intros Hi P Q. split.
  - rewrite resumeProducing_paused, drain_turn by done.
    destruct (get_next_cases (set_paused false st))
      as [[_ G]|[(Hi' & _)|(Hi' & _)]]; [| done | done].
    by erewrite bind_exc by exact G.
  - intros. by rewrite resumeProducing_unpaused.
Qed.

Lemma resume_on_broken_partition_witness :
  let st := run [OpRegister 0 7 true; OpPause] idle_unpaused in
  resumeProducing calm 3 st = (Exc AssertionError, set_paused false st, []) ∧
  ∀ env' fuel',
    resumeProducing env' fuel' (set_paused false st)
      = (Val (), set_paused false st, []).
Proof.
  apply (resume_on_broken_partition calm 2).
  - compute_done.
  - reflexivity.
  - reflexivity.
Defined.

(** ** Turns across rounds and across pauses *)

Lemma rotated_lookup (p : Producer) rest j :
  (j < S (length rest))%nat →
  (rest ++ [p]) !! j = (p :: rest) !! (S j mod S (length rest))%nat.
Proof.
  intros Hj. destruct (decide (j = length rest)) as [->|Hne].
  - rewrite Nat.Div0.mod_same. simpl.
    by rewrite lookup_app_r, Nat.sub_diag by lia.
  - rewrite Nat.mod_small by lia. simpl. apply lookup_app_l. lia.
Qed.

Lemma drain_round_robin fuel : ∀ l st i n,
  paused st = false → queued_unsent st = [] → invariants st →
  all_producers st = l → Forall (eligible st) l →
  (n < fuel)%nat →
  trace (drain calm i fuel st) !! n
  = SigResume <$> l !! (n mod length l)%nat.
Proof.
  induction fuel as [|fuel IH]; intros l st i n P Q Hi Hl Ha Hn; [lia |].
  destruct l as [|p rest].
  { destruct (get_next_cases st)
      as [[N _]|[(_ & _ & _ & G)|(_ & a & q & b & Hl' & _)]].
    - done.
    - rewrite drain_turn by done. by erewrite bind_val by exact G.
    - rewrite Hl in Hl'. by destruct a. }
  apply Forall_cons in Ha as [Hp Ha].
  rewrite (drain_turn_calm i fuel st p (set_all_producers (rest ++ [] ++ [p]) st));
    [| done | done | by apply (get_next_some st [] p rest)].
  destruct n as [|n]; [by rewrite Nat.Div0.mod_0_l |].
  change (trace (drain calm (S i) fuel (set_all_producers (rest ++ [p]) st)) !! n
          = SigResume <$> (p :: rest) !! (S n mod S (length rest))%nat).
  rewrite (IH (rest ++ [p])); simpl; try done.
  - rewrite length_app. simpl. rewrite Nat.add_1_r.
    rewrite rotated_lookup by (apply Nat.mod_upper_bound; lia).
    f_equal. f_equal.
    rewrite <- Nat.add_1_l, Nat.Div0.add_mod_idemp_r. done.
  - apply invariants_rotated; [| done]. rewrite Hl.
    by rewrite <- Permutation_cons_append.
  - apply Forall_app. split; [done | by constructor].
  - lia.
Qed.

(** In a reachable state whose partition holds, every producer of the
    rotation is eligible. *)
Lemma reachable_all_eligible st :
  reachable st → invariants st → Forall (eligible st) (all_producers st).
Proof.
  intros Hr (_ & _ & _ & Hu). apply reachable_unpaused_empty in Hr.
  apply Forall_forall. intros p Hp.
  apply (elem_of_list_to_set (C := gset Producer)) in Hp.
  rewrite <- Hu, Hr in Hp. unfold eligible. set_solver.
Qed.

(** X3. Round robin: in a reachable paused state whose partition holds,
    with nothing to replay and no re-entrant pause, the [n]-th call made
    by [resumeProducing] is [resumeProducing] on the producer at position
    [n mod N] of the deque of [N] producers, pull and push alike, for
    every [n] below the iteration bound. *)
Theorem resume_round_robin fuel st n :
  reachable st → invariants st →
  paused st = true → queued_unsent st = [] →
  (n < fuel)%nat →
  trace (resumeProducing calm fuel st) !! n
  = SigResume <$> all_producers st !! (n mod length (all_producers st))%nat.
Proof.
  intros Hr Hi P Q Hn. rewrite resumeProducing_paused by done.
  apply drain_round_robin; try done.
  by apply (reachable_all_eligible st).
Qed.

Lemma resume_round_robin_witness :
  let st := run [OpRegister 0 10 true; OpRegister 1 11 false;
                 OpRegister 2 12 true] post_init in
  trace (resumeProducing calm 9 st) !! 7%nat
  = SigResume <$> all_producers st !! (7 mod length (all_producers st))%nat.
Proof.
  apply resume_round_robin.
  - repeat apply reachable_step. apply reachable_init.
  - unfold invariants. split_and!; compute_done.
  - reflexivity.
  - reflexivity.
  - lia.
Defined.

(** X4. A turn that fills the connection: when the call made to the first
    eligible producer re-enters [pauseProducing], [resumeProducing]
    returns after that single call, the instance is paused again, and the
    only other change is that the producer (and those skipped before it)
    went to the tail of the deque. *)
Theorem resume_one_turn_then_pause env fuel st a p b :
  invariants st → unpaused_push_producers st = ∅ →
  paused st = true → queued_unsent st = [] →
  all_producers st = a ++ p :: b →
  Forall (λ x, ¬ eligible st x) a → eligible st p →
  env 0%nat = true →
  resumeProducing env (S fuel) st
  = (Val (), set_all_producers (b ++ a ++ [p]) st, [SigResume p]).
Proof.
  intros Hi Hun P Q Hl Ha Hp He.
  rewrite resumeProducing_paused, drain_turn by done.
  erewrite bind_val by (by apply (get_next_some _ a p b)). simpl.
  rewrite bind_emit. unfold reenter. rewrite He.
  erewrite bind_val by (by apply pauseProducing_idle).
  rewrite drain_paused by done. simpl.
  do 2 f_equal. destruct st. simpl in *. by subst.
Qed.

Lemma resume_one_turn_then_pause_witness :
  let st := run (register_pushes [0; 1; 2] [10; 11; 12]) post_init in
  resumeProducing (λ _, true) 5 st
  = (Val (), set_all_producers ([11; 12] ++ [] ++ [10]) st, [SigResume 10]).
Proof.
  apply (resume_one_turn_then_pause (λ _, true) 4 _ [] 10 [11; 12]).
  - unfold invariants. split_and!; compute_done.
  - reflexivity.
  - reflexivity.
  - reflexivity.
  - reflexivity.
  - constructor.
  - right. compute_done.
  - reflexivity.
Defined.

Lemma drain_stops_at_pause env n : ∀ fuel i st,
  env (i + n)%nat = true →
  (length (trace (drain env i fuel st)) ≤ S n)%nat.
Proof.
  induction n as [|n IH]; intros fuel i st He.
  - rewrite Nat.add_0_r in He.
    destruct fuel as [|fuel].
    { destruct (paused st) eqn:P;
        [rewrite drain_paused by done | rewrite drain_out_of_fuel by done];
        simpl; lia. }
    destruct (paused st) eqn:P; [rewrite drain_paused by done; simpl; lia |].
    assert (∀ st1, length (trace ((reenter env i;; drain env (S i) fuel) st1)) = 0%nat)
      as Hre.
    { intros st1. rewrite bind_unfold. unfold reenter. rewrite He.
      destruct (pauseProducing_final st1) as [_ Ht].
      pose proof (pauseProducing_sets_paused st1) as Hp.
      destruct (pauseProducing st1) as [[[[]|e|] st2] t2];
        unfold trace in Ht; simpl in Ht; subst t2; [| done..].
      unfold final in Hp. simpl in Hp. by rewrite drain_paused. }
    destruct (queued_unsent st) as [|r rest] eqn:Q.
    + rewrite drain_turn by done. rewrite bind_unfold.
      destruct (get_next_quiet st) as [_ HT].
      destruct (get_next_unpaused_producer st) as [[[[p|]|e|] st2] t2];
        unfold silent, trace in HT; simpl in HT; subst t2;
        [| simpl; lia..].
      rewrite bind_emit. unfold trace at 1. simpl. rewrite Hre. lia.
    + rewrite (drain_send env i fuel st r rest) by done.
      unfold trace at 1. simpl. rewrite Hre. lia.
  - destruct fuel as [|fuel].
    { destruct (paused st) eqn:P;
        [rewrite drain_paused by done | rewrite drain_out_of_fuel by done];
        simpl; lia. }
    destruct (paused st) eqn:P; [rewrite drain_paused by done; simpl; lia |].
    assert (∀ st1, (length (trace ((reenter env i;; drain env (S i) fuel) st1)) ≤ S n)%nat)
      as Hre.
    { intros st1. rewrite bind_unfold.
      destruct (reenter_quiet env i st1) as [_ HT].
      destruct (reenter env i st1) as [[[[]|e|] st2] t2];
        unfold silent, trace in HT; simpl in HT; subst t2;
        [| simpl; lia..].
      specialize (IH fuel (S i) st2).
      rewrite Nat.add_succ_r in He. specialize (IH He).
      by destruct (drain env (S i) fuel st2) as [[r3 st3] t3]. }
    destruct (queued_unsent st) as [|r rest] eqn:Q.
    + rewrite drain_turn by done. rewrite bind_unfold.
      destruct (get_next_quiet st) as [_ HT].
      destruct (get_next_unpaused_producer st) as [[[[p|]|e|] st2] t2];
        unfold silent, trace in HT; simpl in HT; subst t2;
        [| simpl; lia..].
      rewrite bind_emit. unfold trace at 1. simpl.
      specialize (Hre st2). lia.
    + rewrite (drain_send env i fuel st r rest) by done.
      unfold trace at 1. simpl.
      specialize (Hre (set_queued_unsent rest st)). lia.
Qed.

(** X5. Once a call made by [resumeProducing] re-enters
    [pauseProducing], no further call is made: if the call number [n]
    (from 0) does, at most [n + 1] calls are made, in any state and for
    any iteration bound. *)
Theorem resume_stops_at_pause env fuel st n :
  env n = true →
  (length (trace (resumeProducing env fuel st)) ≤ S n)%nat.
Proof.
  intros He. destruct (paused st) eqn:P.
  - rewrite resumeProducing_paused by done. by apply drain_stops_at_pause.
  - rewrite resumeProducing_unpaused by done. simpl. lia.
Qed.

Lemma resume_stops_at_pause_witness :
  (length (trace (resumeProducing (λ i, bool_decide (i = 1%nat)) 9
                    (final (use_connection (λ _, true) 1 backlog_012))))
   ≤ 2)%nat.
Proof. apply resume_stops_at_pause. reflexivity. Defined.

(** ** The ledger across calls *)

Lemma sublist_Forall {A} (P : A → Prop) (l1 l2 : list A) :
  l1 `sublist_of` l2 → Forall P l2 → Forall P l1.
Proof.
  rewrite !Forall_forall. intros Hs H x Hx. eauto using elem_of_sublist.
Qed.

Lemma strongly_sorted_sublist (l1 l2 : list Rec) :
  l1 `sublist_of` l2 → StronglySorted seq_lt l2 → StronglySorted seq_lt l1.
Proof.
  induction 1 as [|x l1 l2 Hs IH|x l1 l2 Hs IH]; intros H; [done | |].
  - apply StronglySorted_cons in H as [Hx H].
    apply StronglySorted_cons. split; [| by apply IH].
    by eapply sublist_Forall.
  - apply StronglySorted_cons in H as [_ H]. by apply IH.
Qed.

Lemma beyond_sublist m (l1 l2 : list Rec) :
  l1 `sublist_of` l2 → beyond m l1 `sublist_of` beyond m l2.
Proof.
  unfold beyond.
  induction 1 as [|x l1 l2 _ IH|x l1 l2 _ IH]; [done | |];
    rewrite !filter_cons; case_decide; auto using sublist_skip, sublist_cons.
Qed.

Lemma sorted_lt_le (q : list Rec) : StronglySorted seq_lt q → Sorted seq_le q.
Proof.
  induction 1 as [|r q _ IH Hr]; constructor; [done |].
  destruct Hr as [|r' q' Hlt _]; constructor. unfold seq_lt, seq_le in *. lia.
Qed.

Lemma ledger_ok_same st st' : same_ledger st st' → ledger_ok st → ledger_ok st'.
Proof. unfold ledger_ok. by intros (-> & -> & ->). Qed.

Lemma exec_registry_same_ledger op :
  touches_registry op = true → obeys same_ledger any_trace (exec op).
Proof.
  destruct op; try done; intros _; simpl;
    unfold subchannel_registerProducer, subchannel_unregisterProducer,
      subchannel_closed;
    frame; try (unfold subchannel_unregisterProducer; frame);
    unfold same_ledger, any_trace in *; simpl; try done;
    intros; destruct_and?; split_and?; congruence.
Qed.

Lemma ledger_ok_handle_ack m st :
  ledger_ok st → ledger_ok (final (handle_ack m st)).
Proof.
  intros (Hs & Hn & Hq). rewrite handle_ack_unfold. unfold ledger_ok, final. simpl.
  rewrite !popleft_while_beyond
    by (apply sorted_lt_le; eauto using strongly_sorted_sublist).
  split_and!.
  - eapply strongly_sorted_sublist; [apply sublist_filter | done].
  - eapply sublist_Forall; [apply sublist_filter | done].
  - by apply beyond_sublist.
Qed.

Lemma ledger_ok_build_and_queue k a st :
  ledger_ok st → ledger_ok (final (build_and_queue k a st)).
Proof.
  intros (Hs & Hn & Hq). unfold build_and_queue, build_record, queue_record.
  rewrite bind_unfold. simpl. unfold ledger_ok. simpl. split_and!.
  - apply StronglySorted_app. split_and!; [| done | repeat constructor].
    intros x1 x2 H1 ->%list_elem_of_singleton.
    rewrite Forall_forall in Hn. by apply Hn.
  - apply Forall_app. split; [| constructor; [simpl; lia | constructor]].
    eapply Forall_impl; [done |]. intros; simpl in *; lia.
  - by apply sublist_inserts_r.
Qed.

Lemma ledger_ok_exec op st :
  (∀ r, op ≠ OpQueueRecord r) → ledger_ok st → ledger_ok (final (exec op st)).
Proof.
  assert (∀ b st, ledger_ok st → ledger_ok (set_paused b st)) as Hp by done.
  assert (∀ r rest st, ledger_ok st → queued_unsent st = r :: rest →
            ledger_ok (set_queued_unsent rest st)) as Hpop.
  { intros r rest st0 (Hs & Hn & Hq) Q. split_and!; [done | done |]. simpl.
    rewrite Q in Hq. etrans; [apply sublist_cons, reflexivity | done]. }
  assert (∀ l st, ledger_ok st → l ≡ₚ all_producers st →
            ledger_ok (set_all_producers l st)) as Hr by done.
  assert (∀ st, ledger_ok st → ledger_ok (set_queued_unsent [] st)) as Hc.
  { intros st0 (Hs & Hn & Hq). split_and!; [done | done | apply sublist_nil_l]. }
  assert (∀ st, ledger_ok st → queued_unsent st = [] →
            ledger_ok (set_queued_unsent (outbound_queue st) st)) as Hcp.
  { intros st0 (Hs & Hn & Hq) _. by split_and!. }
  intros Hop H. destruct op; simpl.
  - destruct H as (Hs & Hn & Hq). split_and!; [done | | done]. simpl.
    eapply Forall_impl; [done |]. intros; simpl in *; lia.
  - by destruct (Hop r).
  - eapply ledger_ok_same; [| done].
    by apply (exec_registry_same_ledger (OpRegister sc producer streaming)).
  - eapply ledger_ok_same; [| done].
    by apply (exec_registry_same_ledger (OpUnregister sc)).
  - eapply ledger_ok_same; [| done].
    by apply (exec_registry_same_ledger (OpClosed scid sc)).
  - by apply preserved_use_connection.
  - by apply preserved_stop_using_connection.
  - by apply ledger_ok_handle_ack.
  - by apply preserved_pauseProducing.
  - by apply preserved_resumeProducing.
  - by apply preserved_pauseProducing.
Qed.

(** X6. When records are queued only as they are built, then after any
    sequence of calls, whatever their outcome, the backlog is in strictly
    ascending seqnum order with every seqnum below the next one to be
    handed out, and the replay queue is a subsequence of the backlog,
    hence strictly ascending too. *)
Theorem ledger_stays_sorted st :
  ledger_reachable st →
  ledger_ok st ∧ StronglySorted seq_lt (queued_unsent st).
Proof.
  intros H.
  assert (ledger_ok st) as Hok.
  { induction H as [|st k a _ IH|st op _ IH Hop].
    - split_and!; [constructor | constructor | done].
    - by apply ledger_ok_build_and_queue.
    - by apply ledger_ok_exec. }
  split; [done |]. destruct Hok as (Hs & _ & Hq).
  by eapply strongly_sorted_sublist.
Qed.

Lemma ledger_stays_sorted_witness :
  let st := final (exec (OpHandleAck 0)
              (final (build_and_queue Close []
                (final (exec (OpUseConnection (λ _, true) 4)
                  (final (build_and_queue Data [104%Z]
                    (final (build_and_queue Open [] post_init))))))))) in
  ledger_ok st ∧ StronglySorted seq_lt (queued_unsent st).
Proof.
  apply ledger_stays_sorted.
  apply ledger_step; [| done].
  apply ledger_send.
  apply ledger_step; [| done].
  do 2 apply ledger_send. apply ledger_init.
Defined.

Lemma exec_same_seqnum op :
  is_build op = false → obeys same_seqnum any_trace (exec op).
Proof.
  destruct op; try done; intros _; simpl;
    unfold queue_record, subchannel_registerProducer,
      subchannel_unregisterProducer, subchannel_closed, use_connection,
      stop_using_connection, handle_ack, stopProducing;
    frame; try (unfold subchannel_unregisterProducer; frame);
    unfold same_seqnum, any_trace in *; simpl; first [done | congruence].
Qed.

(** X7. The seqnum counter counts the [build_record] calls: after any
    sequence of calls from any state it has advanced by the number of
    [build_record] calls in the sequence; no other method moves it,
    whether it returns or raises. *)
Theorem seqnum_counts_builds ops : ∀ st,
  next_outbound_seqnum (run ops st)
  = (next_outbound_seqnum st + Z.of_nat (length (filter is_build ops)))%Z.
Proof.
  induction ops as [|op ops IH]; intros st; simpl; [lia |].
  rewrite IH. rewrite filter_cons.
  destruct (decide (is_build op)) as [D|D].
  - destruct op; try done. simpl length. simpl. lia.
  - apply Is_true_false_1 in D.
    pose proof (exec_same_seqnum op D st) as [H _].
    unfold same_seqnum in H. by rewrite H.
Qed.

(** X8. Attaching a connection while records are still in the replay
    queue raises [AssertionError]; nothing is changed and nobody is
    called. *)
Theorem use_connection_while_replaying env fuel st :
  queued_unsent st ≠ [] →
  use_connection env fuel st = (Exc AssertionError, st, []).
Proof.
  intros Q. unfold use_connection. rewrite bind_get.
  by rewrite bool_decide_eq_false_2 by done.
Qed.

Lemma use_connection_while_replaying_witness :
  use_connection calm 5 interrupted_replay
  = (Exc AssertionError, interrupted_replay, []).
Proof. apply use_connection_while_replaying. compute_done. Defined.

(** X9. Reconnecting replays everything: in a reachable state,
    [stop_using_connection] followed by [use_connection] on a connection
    that takes it all sends the whole backlog again, head first, before
    any producer gets a turn, whatever had been replayed before. *)
Theorem reconnect_replays_backlog fuel st :
  reachable st →
  (length (outbound_queue st) ≤ fuel)%nat →
  ∃ resumes,
    trace (use_connection calm fuel (final (stop_using_connection st)))
    = ConnRegister :: (SendRecord <$> outbound_queue st)
        ++ (SigResume <$> resumes).
Proof.
  intros Hr Hf. apply reachable_unpaused_empty in Hr.
  unfold stop_using_connection. rewrite bind_modify.
  rewrite pauseProducing_idle by done. unfold final at 1. simpl.
  unfold use_connection. rewrite bind_get. simpl.
  unfold assert. rewrite bind_ret, bind_modify, bind_emit. simpl.
  rewrite resumeProducing_paused by done.
  match goal with |- context [drain calm 0 fuel ?s] =>
    destruct (drain_replay calm fuel 0 s) as (k & resumes & E & _ & Hall);
    change (queued_unsent s) with (outbound_queue st) in E, Hall
  end.
  rewrite Hall in E by done.
  rewrite take_ge in E by done.
  exists resumes. by rewrite E.
Qed.

Lemma reconnect_replays_backlog_witness :
  ∃ resumes,
    trace (use_connection calm 4
             (final (stop_using_connection
                (final (use_connection (λ _, true) 4 backlog_012)))))
    = ConnRegister
        :: (SendRecord <$> outbound_queue
              (final (use_connection (λ _, true) 4 backlog_012)))
        ++ (SigResume <$> resumes).
Proof.
  apply reconnect_replays_backlog.
  - unfold backlog_012, ledger_012.
    apply (reachable_step _ (OpUseConnection _ _)).
    repeat apply reachable_step. apply reachable_init.
  - compute_done.
Defined.

Lemma popleft_while_retired m q : retired m q (popleft_while m q).
Proof.
  induction q as [|r q (gone & E & Hg & Hh)].
  { exists []. split_and!; [done | constructor | done]. }
  simpl. case_bool_decide as C.
  - exists (r :: gone). split_and!; [by rewrite E at 1 | by constructor | done].
  - exists []. split_and!; [done | constructor |].
    intros r' [= <-]. lia.
Qed.

(** X11. On any queues, sorted or not, [handle_ack m] removes from the
    backlog and from the replay queue a prefix of records with seqnum up
    to [m] and stops at the first record with a larger seqnum, which stays
    at the head with everything behind it; no other attribute changes and
    nobody is called. *)
Theorem handle_ack_trims_prefix m st :
  retired m (outbound_queue st) (outbound_queue (final (handle_ack m st))) ∧
  retired m (queued_unsent st) (queued_unsent (final (handle_ack m st))) ∧
  same_registry st (final (handle_ack m st)) ∧
  same_sets st (final (handle_ack m st)) ∧
  paused (final (handle_ack m st)) = paused st ∧
  next_outbound_seqnum (final (handle_ack m st)) = next_outbound_seqnum st ∧
  outcome (handle_ack m st) = Val () ∧ trace (handle_ack m st) = [].
Proof.
  rewrite handle_ack_unfold. unfold final, outcome, trace. simpl.
  split_and!; try done; apply popleft_while_retired.
Qed.

(** *** Acknowledged records stay retired *)

Lemma popleft_while_sublist m q : popleft_while m q `sublist_of` q.
Proof.
  destruct (popleft_while_retired m q) as (gone & E & _).
  rewrite E at 2. apply sublist_inserts_l. reflexivity.
Qed.

(** No call but [queue_record] adds to the backlog, and none takes the
    seqnum counter back. *)
Lemma exec_backlog_shrinks op st :
  (∀ r, op ≠ OpQueueRecord r) →
  outbound_queue (final (exec op st)) `sublist_of` outbound_queue st ∧
  (next_outbound_seqnum st ≤ next_outbound_seqnum (final (exec op st)))%Z.
Proof.
  set (P := λ s : Outbound, outbound_queue s = outbound_queue st ∧
                            next_outbound_seqnum s = next_outbound_seqnum st).
  assert (P st) as H0 by done.
  assert (∀ s, P s → outbound_queue s `sublist_of` outbound_queue st ∧
                 (next_outbound_seqnum st ≤ next_outbound_seqnum s)%Z) as Hfin.
  { intros s [-> ->]. split; [reflexivity | lia]. }
  assert (∀ b s, P s → P (set_paused b s)) as Hp by done.
  assert (∀ r rest s, P s → queued_unsent s = r :: rest →
            P (set_queued_unsent rest s)) as Hpop by done.
  assert (∀ l s, P s → l ≡ₚ all_producers s → P (set_all_producers l s))
    as Hr by done.
  assert (∀ s, P s → P (set_queued_unsent [] s)) as Hc by done.
  assert (∀ s, P s → queued_unsent s = [] →
            P (set_queued_unsent (outbound_queue s) s)) as Hcp by done.
  assert (∀ op', touches_registry op' = true → P (final (exec op' st))) as Hreg.
  { intros op' Ht. destruct (exec_registry_same_ledger op' Ht st) as [(E1 & E2 & _) _].
    by split. }
  intros Hop. destruct op; unfold exec.
  - simpl. split; [reflexivity | simpl; lia].
  - by destruct (Hop r).
  - by apply Hfin, (Hreg (OpRegister sc producer streaming)).
  - by apply Hfin, (Hreg (OpUnregister sc)).
  - by apply Hfin, (Hreg (OpClosed scid sc)).
  - by apply Hfin, preserved_use_connection.
  - by apply Hfin, preserved_stop_using_connection.
  - rewrite handle_ack_unfold. unfold final. simpl.
    split; [apply popleft_while_sublist | lia].
  - by apply Hfin, preserved_pauseProducing.
  - by apply Hfin, preserved_resumeProducing.
  - by apply Hfin, preserved_pauseProducing.
Qed.

Lemma acked_below_handle_ack m st :
  ledger_ok st → (m < next_outbound_seqnum st)%Z →
  acked_below m (final (handle_ack m st)).
Proof.
  intros Hok Hm. split_and!; [by apply ledger_ok_handle_ack | | done].
  destruct Hok as (Hs & _ & _).
  rewrite handle_ack_unfold. unfold final. simpl.
  rewrite popleft_while_beyond by (by apply sorted_lt_le).
  apply Forall_forall. intros r Hr.
  by apply list_elem_of_filter in Hr as [Hr _].
Qed.

Lemma acked_below_later m st0 st :
  acked_below m st0 → ledger_later st0 st → acked_below m st.
Proof.
  intros H0. induction 1 as [|st k a _ IH|st op _ IH Hop]; [done | |].
  - destruct IH as (Hok & Hall & Hm).
    split_and!; [by apply ledger_ok_build_and_queue | |].
    + unfold build_and_queue, build_record, queue_record.
      rewrite bind_unfold. simpl.
      apply Forall_app. split; [done |]. constructor; [simpl; lia | constructor].
    + unfold build_and_queue, build_record, queue_record.
      rewrite bind_unfold. simpl. lia.
  - destruct IH as (Hok & Hall & Hm).
    destruct (exec_backlog_shrinks op st Hop) as [Hsub Hnext].
    split_and!; [by apply ledger_ok_exec | by eapply sublist_Forall | lia].
Qed.

(** The records [resumeProducing] sends come from the replay queue, and
    those [use_connection] sends come from the backlog. *)
Lemma resume_sends_from_replay env fuel st r :
  SendRecord r ∈ trace (resumeProducing env fuel st) → r ∈ queued_unsent st.
Proof.
  destruct (paused st) eqn:P.
  - rewrite resumeProducing_paused by done.
    destruct (drain_replay env fuel 0 (set_paused false st))
      as (k & resumes & -> & _ & _).
    simpl. intros [H|H]%elem_of_app.
    + apply list_elem_of_fmap in H as (r' & [= ->] & H).
      eapply elem_of_sublist; [done | apply sublist_take].
    + by apply list_elem_of_fmap in H as (p & ? & _).
  - rewrite resumeProducing_unpaused by done. simpl. by intros ?%elem_of_nil.
Qed.

Lemma use_connection_sends_from_backlog env fuel st r :
  SendRecord r ∈ trace (use_connection env fuel st) → r ∈ outbound_queue st.
Proof.
  unfold use_connection. rewrite bind_get.
  case_bool_decide as Q; [| simpl; by intros ?%elem_of_nil].
  unfold assert. rewrite bind_ret, bind_modify, bind_emit. simpl.
  rewrite Q. simpl. unfold trace at 1. simpl.
  intros [H|H]%elem_of_cons; [done |].
  by apply resume_sends_from_replay in H.
Qed.

(** X10. An acknowledged record is not sent again: after [handle_ack m],
    for a seqnum [m] already handed out, on a ledger in order, no
    [resumeProducing] and no [use_connection] in any later state sends a
    record with a seqnum up to [m], whichever calls re-enter
    [pauseProducing], as long as records are only queued as they are
    built. *)
Theorem acked_records_not_replayed m st st' env fuel r :
  ledger_ok st → (m < next_outbound_seqnum st)%Z →
  ledger_later (final (handle_ack m st)) st' →
  SendRecord r ∈ trace (resumeProducing env fuel st') ∨
  SendRecord r ∈ trace (use_connection env fuel st') →
  (m < seqnum r)%Z.
Proof.
  intros Hok Hm Hl Hsend.
  destruct (acked_below_later m _ st' (acked_below_handle_ack m st Hok Hm) Hl)
    as ((_ & _ & Hq) & Hall & _).
  rewrite Forall_forall in Hall. apply Hall.
  destruct Hsend as [H|H].
  - apply resume_sends_from_replay in H. by eapply elem_of_sublist.
  - by apply use_connection_sends_from_backlog in H.
Qed.

Lemma acked_records_not_replayed_witness :
  (1 < seqnum (mkRec 2 Close []))%Z.
Proof.
  apply (acked_records_not_replayed 1
           (final (build_and_queue Close []
             (final (build_and_queue Data [104%Z]
               (final (build_and_queue Open [] post_init))))))
           (final (exec OpStopUsingConnection
             (final (exec (OpUseConnection (λ _, true) 4)
               (final (handle_ack 1
                 (final (build_and_queue Close []
                   (final (build_and_queue Data [104%Z]
                     (final (build_and_queue Open [] post_init))))))))))))
           calm 4).
  - repeat apply ledger_ok_build_and_queue.
    split_and!; [constructor | constructor | done].
  - reflexivity.
  - apply later_step; [| done]. apply later_step; [| done]. apply later_now.
  - right. vm_compute. right. left.
Defined.

(** ** Registry and rotation *)

Lemma deque_remove_Some x l l' : deque_remove x l = Some l' → l ≡ₚ x :: l'.
Proof.
  revert l'. induction l as [|y l IH]; intros l' E; [done |].
  simpl in E. case_decide as D.
  - by injection E as <-; subst.
  - destruct (deque_remove x l) as [r|]; [| done]. injection E as <-.
    rewrite (IH r eq_refl). apply perm_swap.
Qed.

Lemma deque_remove_None x l : deque_remove x l = None → x ∉ l.
Proof.
  induction l as [|y l IH]; intros E; [by apply not_elem_of_nil |].
  simpl in E. case_decide as D; [done |].
  destruct (deque_remove x l) as [r|]; [done |].
  apply not_elem_of_cons. split; [done | by apply IH].
Qed.

Lemma deque_remove_once x a b :
  x ∉ a → deque_remove x (a ++ x :: b) = Some (a ++ b).
Proof.
  induction a as [|y a IH]; intros Hx; simpl.
  - by rewrite decide_True.
  - apply not_elem_of_cons in Hx as [Hne Hx].
    rewrite decide_False by done. by rewrite IH.
Qed.

Lemma coherent_same st st' : same_registry st st' → coherent st → coherent st'.
Proof. unfold coherent. by intros (-> & ->). Qed.

(** What a registration on a free subchannel does to the registry and
    the rotation, whichever way it ends. *)
Lemma register_free_registry st sc p streaming :
  subchannel_producers st !! sc = None →
  subchannel_producers (final (subchannel_registerProducer sc p streaming st))
    = <[sc := p]> (subchannel_producers st) ∧
  all_producers (final (subchannel_registerProducer sc p streaming st))
    = all_producers st ++ [p].
Proof.
  intros Hsc. unfold subchannel_registerProducer.
  rewrite bind_get, Hsc.
  rewrite bool_decide_eq_false_2 by (by intros [? ?]).
  rewrite bind_ret, !bind_modify.
  match goal with |- context [final (?m ?s)] =>
    assert (obeys same_registry any_trace m) as Hm
  end.
  { frame; unfold same_registry, any_trace in *; simpl; try done;
      intros; destruct_and?; split_and?; congruence. }
  match goal with |- context [final (?m ?s)] =>
    destruct (Hm s) as [[-> ->] _]
  end.
  done.
Qed.

Lemma coherent_exec op st : coherent st → coherent (final (exec op st)).
Proof.
  assert (∀ b st, coherent st → coherent (set_paused b st)) as Hp by done.
  assert (∀ r rest st, coherent st → queued_unsent st = r :: rest →
            coherent (set_queued_unsent rest st)) as Hpop by done.
  assert (∀ l st, coherent st → l ≡ₚ all_producers st →
            coherent (set_all_producers l st)) as Hr.
  { unfold coherent. intros l st0 H Hl. simpl. by rewrite Hl. }
  assert (∀ st, coherent st → coherent (set_queued_unsent [] st)) as Hc by done.
  assert (∀ st, coherent st → queued_unsent st = [] →
            coherent (set_queued_unsent (outbound_queue st) st)) as Hcp by done.
  assert (∀ sc st, coherent st →
            coherent (final (subchannel_unregisterProducer sc st))) as Hun.
  { intros sc st0 H. pose proof (unregister_cases st0 sc) as U.
    destruct (subchannel_producers st0 !! sc) as [p|] eqn:Hsc; [| by rewrite U].
    destruct (deque_remove p (all_producers st0)) as [l|] eqn:Hd.
    - rewrite U. unfold coherent, final in *. simpl.
      apply deque_remove_Some in Hd. rewrite Hd in H.
      rewrite <- (map_to_list_delete _ _ _ Hsc) in H. simpl in H.
      by apply Permutation_cons_inv in H.
    - apply deque_remove_None in Hd. exfalso. apply Hd.
      unfold coherent in H. rewrite H.
      apply list_elem_of_fmap. exists (sc, p). split; [done |].
      by apply elem_of_map_to_list. }
  intros H. destruct op; simpl; try done.
  - destruct (subchannel_producers st !! sc) as [q|] eqn:Hsc.
    + by rewrite register_mapped_raises by done.
    + destruct (register_free_registry st sc producer streaming Hsc) as [E1 E2].
      unfold coherent. rewrite E1, E2.
      rewrite map_to_list_insert by done. simpl.
      rewrite <- Permutation_cons_append. by constructor.
  - by apply Hun.
  - unfold subchannel_closed. rewrite bind_unfold.
    destruct (decide (invariants st)) as [Hi|Hi];
      [rewrite check_invariants_ok by done
      | by rewrite check_invariants_fail by done].
    rewrite bind_get. simpl.
    case_bool_decide; [| done].
    pose proof (Hun sc st H) as H'.
    by destruct (subchannel_unregisterProducer sc st) as [[r0 st0] t0].
  - by apply preserved_use_connection.
  - by apply preserved_stop_using_connection.
  - by apply preserved_pauseProducing.
  - by apply preserved_resumeProducing.
  - by apply preserved_pauseProducing.
Qed.

(** X12. In every reachable state the rotation deque holds exactly the
    producers of the registry, once per registered subchannel; so
    [deque.remove] in [subchannel_unregisterProducer] always finds the
    producer: the call ends with [KeyError] on an unmapped subchannel and
    with [AttributeError] on a mapped one, never with [ValueError]. *)
Theorem registry_matches_rotation st :
  reachable st →
  coherent st ∧
  ∀ sc, outcome (subchannel_unregisterProducer sc st)
        = match subchannel_producers st !! sc with
          | Some _ => Exc AttributeError
          | None => Exc KeyError
          end.
Proof.
  intros Hr.
  assert (coherent st) as H.
  { induction Hr as [|st op _ IH]; [| by apply coherent_exec].
    unfold coherent. simpl. by rewrite map_to_list_empty. }
  split; [done |]. intros sc.
  pose proof (unregister_cases st sc) as U.
  destruct (subchannel_producers st !! sc) as [p|] eqn:Hsc; [| by rewrite U].
  destruct (deque_remove p (all_producers st)) as [l|] eqn:Hd; [by rewrite U |].
  apply deque_remove_None in Hd. exfalso. apply Hd.
  unfold coherent in H. rewrite H.
  apply list_elem_of_fmap. exists (sc, p). split; [done |].
  by apply elem_of_map_to_list.
Qed.

Lemma registry_matches_rotation_witness :
  let st := run [OpRegister 0 10 true; OpRegister 1 11 false;
                 OpResume (λ i, bool_decide (i = 2)) 9; OpUnregister 0;
                 OpRegister 2 10 false] post_init in
  coherent st ∧
  ∀ sc, outcome (subchannel_unregisterProducer sc st)
        = match subchannel_producers st !! sc with
          | Some _ => Exc AttributeError
          | None => Exc KeyError
          end.
Proof.
  apply registry_matches_rotation.
  repeat apply reachable_step. apply reachable_init.
Defined.

(** X13. Admission of a pull producer: registering, on a free subchannel
    of an instance whose partition holds, a pull producer that is not in
    a push set returns normally with the producer mapped, at the tail of
    the deque and in the pull set, and the partition still holds; the
    producer is called ([resumeProducing], once) exactly when the instance
    is unpaused, and not at all when it is paused. *)
Theorem register_pull_admitted st sc p :
  subchannel_producers st !! sc = None →
  invariants st →
  p ∉ paused_push_producers st → p ∉ unpaused_push_producers st →
  subchannel_registerProducer sc p false st
  = (Val (), admit_pull sc p st, if paused st then [] else [SigResume p])
  ∧ invariants (admit_pull sc p st).
Proof.
  intros Hsc (H1 & H2 & H3 & H4) Hpp Hun.
  assert (invariants (admit_pull sc p st)) as Hi.
  { repeat split; simpl; [set_solver | set_solver | done |].
    rewrite list_to_set_app_L. simpl. set_solver. }
  split; [| done].
  unfold subchannel_registerProducer.
  rewrite bind_get, Hsc.
  rewrite bool_decide_eq_false_2 by (by intros [? ?]).
  rewrite bind_ret, !bind_modify, bind_get. simpl.
  rewrite bind_modify.
  erewrite bind_val by (by apply check_invariants_ok).
  rewrite bind_get. simpl. by destruct (paused st).
Qed.

Lemma register_pull_admitted_witness :
  subchannel_registerProducer 3 13 false idle_unpaused
  = (Val (), admit_pull 3 13 idle_unpaused,
     if paused idle_unpaused then [] else [SigResume 13])
  ∧ invariants (admit_pull 3 13 idle_unpaused).
Proof.
  apply register_pull_admitted.
  - reflexivity.
  - unfold invariants. split_and!; compute_done.
  - compute_done.
  - compute_done.
Defined.

(** X14. Registering as a push producer, on a free subchannel of a paused
    instance, a producer that is already in the pull set raises
    [AssertionError] from [_check_invariants] after the registration has
    been stored: the producer is then in both sets, and the partition is
    broken for every later check. *)
Theorem register_pull_as_push_breaks_partition st sc p :
  subchannel_producers st !! sc = None →
  paused st = true →
  p ∈ pull_producers st →
  subchannel_registerProducer sc p true st
  = (Exc AssertionError, admit_paused_push sc p st, [])
  ∧ ¬ invariants (admit_paused_push sc p st).
Proof.
  intros Hsc P Hp.
  assert (¬ invariants (admit_paused_push sc p st)) as Hi.
  { intros (_ & H2 & _). simpl in H2. set_solver. }
  split; [| done].
  unfold subchannel_registerProducer.
  rewrite bind_get, Hsc.
  rewrite bool_decide_eq_false_2 by (by intros [? ?]).
  rewrite bind_ret, !bind_modify, bind_get. simpl. rewrite P.
  rewrite bind_modify.
  by erewrite bind_exc by (by apply check_invariants_fail).
Qed.

Lemma register_pull_as_push_breaks_partition_witness :
  subchannel_registerProducer 1 7 true one_pull
  = (Exc AssertionError, admit_paused_push 1 7 one_pull, [])
  ∧ ¬ invariants (admit_paused_push 1 7 one_pull).
Proof.
  apply register_pull_as_push_breaks_partition.
  - reflexivity.
  - reflexivity.
  - compute_done.
Defined.

(** X15. Unregistering a producer that is in the rotation once: on an
    instance whose partition holds, the call raises [AttributeError] only
    after it has removed the mapping, the deque entry and the set
    membership, and the state it leaves satisfies the partition invariant
    with the producer gone from the rotation and from every set. *)
Theorem unregister_once_leaves_partition st sc p a b :
  invariants st →
  subchannel_producers st !! sc = Some p →
  all_producers st = a ++ p :: b → p ∉ a → p ∉ b →
  p ∉ unpaused_push_producers st →
  let r := subchannel_unregisterProducer sc st in
  outcome r = Exc AttributeError ∧
  subchannel_producers (final r) = delete sc (subchannel_producers st) ∧
  all_producers (final r) = a ++ b ∧
  pull_producers (final r) = pull_producers st ∖ {[p]} ∧
  paused_push_producers (final r) = paused_push_producers st ∖ {[p]} ∧
  invariants (final r).
Proof.
  intros (H1 & H2 & H3 & H4) Hsc Hl Ha Hb Hun r. subst r.
  pose proof (unregister_cases st sc) as U.
  rewrite Hsc, Hl, deque_remove_once in U by done. rewrite U.
  unfold outcome, final. simpl.
  split_and!; try done.
  repeat split; simpl; [set_solver | set_solver | set_solver |].
  rewrite Hl in H4. rewrite list_to_set_app_L in *. simpl in H4.
  apply set_eq. intros x.
  assert (x = p → (x ∉ a) ∧ (x ∉ b)) as Hx by (by intros ->).
  assert (x ∈ pull_producers st ∪ paused_push_producers st
                ∪ unpaused_push_producers st
          ↔ x ∈ (list_to_set a ∪ ({[p]} ∪ list_to_set b) : gset Producer)) as Hm
    by (by rewrite H4).
  rewrite !elem_of_union, !elem_of_list_to_set, elem_of_singleton in Hm.
  rewrite !elem_of_union, !elem_of_difference, !elem_of_list_to_set,
    elem_of_singleton.
  destruct (decide (x = p)) as [->|Hne]; [tauto | tauto].
Qed.

Lemma unregister_once_leaves_partition_witness :
  let st := run (register_pushes [0; 1; 2] [10; 11; 12]) post_init in
  let r := subchannel_unregisterProducer 1 st in
  outcome r = Exc AttributeError ∧
  subchannel_producers (final r) = delete 1 (subchannel_producers st) ∧
  all_producers (final r) = [10] ++ [12] ∧
  pull_producers (final r) = pull_producers st ∖ {[11]} ∧
  paused_push_producers (final r) = paused_push_producers st ∖ {[11]} ∧
  invariants (final r).
Proof.
  apply (unregister_once_leaves_partition _ 1 11 [10] [12]).
  - unfold invariants. split_and!; compute_done.
  - reflexivity.
  - reflexivity.
  - compute_done.
  - compute_done.
  - compute_done.
Defined.

(** X16. The scheduler: when the partition holds,
    [_get_next_unpaused_producer] returns [None] and changes nothing if the
    pull and paused-push sets are empty; otherwise it returns the first
    producer of the deque that is in one of these two sets and leaves it at
    the tail of the deque, behind the producers it skipped, these and the
    rest of the deque keeping their order. It calls nobody. *)
Theorem scheduler_next_turn st :
  invariants st →
  (pull_producers st = ∅ → paused_push_producers st = ∅ →
   get_next_unpaused_producer st = (Val None, st, [])) ∧
  (∀ a p b,
     all_producers st = a ++ p :: b →
     Forall (λ x, ¬ eligible st x) a → eligible st p →
     get_next_unpaused_producer st
     = (Val (Some p), set_all_producers (b ++ a ++ [p]) st, [])) ∧
  ((∃ x, eligible st x) →
   ∃ a p b, all_producers st = a ++ p :: b ∧
     Forall (λ x, ¬ eligible st x) a ∧ eligible st p).
Proof.
  intros Hi. split_and!.
  - intros. by apply get_next_none.
  - intros. by apply get_next_some.
  - intros [x Hx].
    destruct (get_next_cases st)
      as [[N _]|[(_ & E1 & E2 & _)|(_ & a & p & b & Hl & Ha & Hp & _)]].
    + done.
    + unfold eligible in Hx. set_solver.
    + by exists a, p, b.
Qed.

Lemma scheduler_next_turn_witness :
  let st := final (resumeProducing (λ _, true) 3
              (run [OpRegister 0 10 true; OpRegister 1 11 false;
                    OpRegister 2 12 true] post_init)) in
  (pull_producers st = ∅ → paused_push_producers st = ∅ →
   get_next_unpaused_producer st = (Val None, st, [])) ∧
  (∀ a p b,
     all_producers st = a ++ p :: b →
     Forall (λ x, ¬ eligible st x) a → eligible st p →
     get_next_unpaused_producer st
     = (Val (Some p), set_all_producers (b ++ a ++ [p]) st, [])) ∧
  ((∃ x, eligible st x) →
   ∃ a p b, all_producers st = a ++ p :: b ∧
     Forall (λ x, ¬ eligible st x) a ∧ eligible st p).
Proof.
  apply scheduler_next_turn.
  unfold invariants. split_and!; compute_done.
Defined.

(** X17. Admission of a push producer while paused: on a free subchannel
    of a paused instance whose partition holds, registering a push
    producer that is in no other set returns normally after exactly one
    call, [pauseProducing] on that producer; the producer is mapped, at
    the tail of the deque and in the paused-push set, and the partition
    still holds. *)
Theorem register_push_admitted st sc p :
  subchannel_producers st !! sc = None →
  paused st = true →
  invariants st →
  p ∉ pull_producers st → p ∉ unpaused_push_producers st →
  subchannel_registerProducer sc p true st
  = (Val (), admit_paused_push sc p st, [SigPause p])
  ∧ invariants (admit_paused_push sc p st)
  ∧ subchannel_producers (admit_paused_push sc p st) !! sc = Some p
  ∧ last (all_producers (admit_paused_push sc p st)) = Some p
  ∧ p ∈ paused_push_producers (admit_paused_push sc p st).
Proof.
  intros Hsc P Hi Hpull Hun.
  destruct (register_push_paused st sc p) as [E Hi']; [done.. |].
  split_and!; [done | done | | |]; simpl.
  - by rewrite lookup_insert_eq.
  - by rewrite last_snoc.
  - set_solver.
Qed.

Lemma register_push_admitted_witness :
  subchannel_registerProducer 1 8 true one_push
  = (Val (), admit_paused_push 1 8 one_push, [SigPause 8])
  ∧ invariants (admit_paused_push 1 8 one_push)
  ∧ subchannel_producers (admit_paused_push 1 8 one_push) !! 1 = Some 8
  ∧ last (all_producers (admit_paused_push 1 8 one_push)) = Some 8
  ∧ 8 ∈ paused_push_producers (admit_paused_push 1 8 one_push).
Proof.
  apply register_push_admitted.
  - reflexivity.
  - reflexivity.
  - unfold invariants. split_and!; compute_done.
  - compute_done.
  - compute_done.
Defined.

(** X18. Losing the connection: in a reachable state
    [stop_using_connection] returns normally and calls nobody; it empties
    the replay queue and sets the flag, and leaves the backlog, the seqnum
    counter, the registry, the rotation and the three sets as they
    were. *)
Theorem stop_using_connection_keeps_backlog st :
  reachable st →
  stop_using_connection st
  = (Val (), set_paused true (set_queued_unsent [] st), []).
Proof.
  intros Hr. apply reachable_unpaused_empty in Hr.
  unfold stop_using_connection. rewrite bind_modify.
  by rewrite pauseProducing_idle.
Qed.

Lemma stop_using_connection_keeps_backlog_witness :
  stop_using_connection (final (use_connection (λ _, true) 4 backlog_012))
  = (Val (),
     set_paused true
       (set_queued_unsent [] (final (use_connection (λ _, true) 4 backlog_012))),
     []).
Proof.
  apply stop_using_connection_keeps_backlog.
  unfold backlog_012, ledger_012.
  apply (reachable_step _ (OpUseConnection _ _)).
  repeat apply reachable_step. apply reachable_init.
Defined.
